(** * HashTable.h: a separate-chaining hash table with load-factor growth

    A shallow embedding of [src/hash_table/HashTable.h] and the properties
    of its operations.

    - [size_t] is a [Z] in [0, 2^64) with the wrap-around written out
      ([to_size_t]); [int] is a [Z] in [-2^31, 2^31) ([to_int]); [float] is
      IEEE binary32, through the Standard Library's [SpecFloat] operations
      at precision 24 and maximal exponent 128.
    - a [std::unique_ptr<Node>] chain is exclusively owned from its head,
      so a chain is the list of its (key, value) nodes, head first, and
      the [std::vector] of buckets is a list of chains.  [CopyBuckets] is
      the one function that walks a chain of another table through raw
      pointers while it assigns owning pointers; it is modelled a second
      time over an explicit store of nodes (module [Store]).
    - a call either returns, throws [std::out_of_range], or has undefined
      behaviour (an index outside the vector, a modulus by zero, a read of
      a node already released, an overflowing [int] counter): the type
      [outcome].  Exhaustion of memory is not modelled. *)

From Stdlib Require Import ZArith Lia String Ascii DecimalString.
From Stdlib Require Import Floats.SpecFloat.
From stdpp Require Import base option list.

Local Open Scope Z_scope.

(** ** Outcomes of a call *)

Inductive exception : Type :=
| out_of_range (what : string)
| length_error.

Inductive undefined : Type :=
| modulo_by_zero
| out_of_bounds
| use_after_free
| signed_overflow.

Inductive outcome (A : Type) : Type :=
| Returns (a : A)
| Throws (e : exception)
| Undefined (u : undefined).

Arguments Returns {A} a.
Arguments Throws {A} e.
Arguments Undefined {A} u.

#[global] Instance outcome_ret : MRet outcome := fun A a => Returns a.

#[global] Instance outcome_bind : MBind outcome := fun A B f m =>
  match m with
  | Returns a => f a
  | Throws e => Throws e
  | Undefined u => Undefined u
  end.

Definition returned {A} (m : outcome A) : Prop := exists a, m = Returns a.

(** ** Machine numbers *)

Definition SIZE_WIDTH : Z := 64.
Definition INT_MAX : Z := 2147483647.

(** [std::vector<std::unique_ptr<Node>>::max_size()]: the largest
    [ptrdiff_t], [2^63 - 1], over the 8 bytes of an element *)
Definition max_size : Z := 2 ^ 60 - 1.

(** conversion to [size_t]: reduction modulo 2^64 *)
Definition to_size_t (z : Z) : Z := z mod 2 ^ SIZE_WIDTH.

(** conversion to [int]: reduction modulo 2^32 into [-2^31, 2^31) *)
Definition to_int (z : Z) : Z := (z + 2 ^ 31) mod 2 ^ 32 - 2 ^ 31.

(** [float] is binary32 *)
Definition float : Type := spec_float.
Definition prec : Z := 24.
Definition emax : Z := 128.

(** conversion of an integer to [float], to nearest even *)
Definition float_of_Z (z : Z) : float := binary_normalize prec emax z 0 false.

Definition float_mul (x y : float) : float := SFmul prec emax x y.

(** [x >= y] on floats: false when either is a NaN *)
Definition float_ge (x y : float) : bool :=
  match SFcompare x y with
  | Some Gt | Some Eq => true
  | _ => false
  end.

(** the literal 0.75 and the literal 0.0 *)
Definition float_0_75 : float := Eval cbv in binary_normalize prec emax 3 (-2) false.
Definition float_0 : float := S754_zero false.

Definition newline : string := String (ascii_of_nat 10) EmptyString.
Definition Get_what : string := "Incorrect key index!" ++ newline.
Definition Remove_what : string := "No such key exists!" ++ newline.

(** ** The table *)

(** [std::hash<Key>]: the key type comes with a function to [size_t] *)
Class Hash (Key : Type) : Type := std_hash : Key -> Z.

Section Table.

Context {Key Value : Type} `{EqDecision Key} `{Hash Key}.

(** a chain: the nodes reachable from a bucket, head first *)
Definition chain : Type := list (Key * Value).

Record HashTable : Type := mkHashTable {
  buckets : list chain;
  table_size : Z;
  element_count : Z;
  load_refactor : float
}.

(** [buckets[i]] with [i] converted to [size_t]; [operator[]] does not
    check its index *)
Definition index (i : Z) : nat := Z.to_nat (to_size_t i).

Definition at_index (bs : list chain) (i : Z) : outcome chain :=
  match bs !! index i with
  | Some c => Returns c
  | None => Undefined out_of_bounds
  end.

(** [HashTable(size_t table_size, float load_factor)]:
    [buckets.resize(table_size)] throws [std::length_error] for a size
    above [max_size()] *)
Definition HashTable_new (size : Z) (load_factor : float) : outcome HashTable :=
  if decide (max_size < size) then Throws length_error
  else Returns {| buckets := replicate (Z.to_nat size) [];
                  table_size := size;
                  element_count := 0;
                  load_refactor := load_factor |}.

(** [int HashFunction(const Key &key) const] *)
Definition HashFunction (t : HashTable) (key : Key) : outcome Z :=
  if decide (table_size t = 0) then Undefined modulo_by_zero
  else Returns (to_int (std_hash key mod table_size t)).

(** the scan of a chain for the first node with an equal key *)
Fixpoint find_node (c : chain) (key : Key) : option Value :=
  match c with
  | [] => None
  | (k, v) :: next => if decide (k = key) then Some v else find_node next key
  end.

(** the scan of [Insert]: the first node with an equal key gets the value *)
Fixpoint assign_node (c : chain) (key : Key) (value : Value) : option chain :=
  match c with
  | [] => None
  | (k, v) :: next =>
      if decide (k = key) then Some ((k, value) :: next)
      else cons (k, v) <$> assign_node next key value
  end.

(** the scan of [Remove]: the first node with an equal key is unlinked *)
Fixpoint unlink_node (c : chain) (key : Key) : option chain :=
  match c with
  | [] => None
  | (k, v) :: next =>
      if decide (k = key) then Some next
      else cons (k, v) <$> unlink_node next key
  end.

(** [void Resize()]: the inner [while (bucket)] loop over one old chain.
    [HashFunction] still reads the table's own [table_size], which is
    assigned only after the loops. *)
Fixpoint relocate (t : HashTable) (bucket : chain) (new_buckets : list chain)
  : outcome (list chain) :=
  match bucket with
  | [] => Returns new_buckets
  | (k, v) :: next =>
      new_index ← HashFunction t k;
      head ← at_index new_buckets new_index;
      relocate t next (<[index new_index := (k, v) :: head]> new_buckets)
  end.

(** the outer [for (auto &bucket: buckets)] loop *)
Fixpoint relocate_all (t : HashTable) (bs : list chain) (new_buckets : list chain)
  : outcome (list chain) :=
  match bs with
  | [] => Returns new_buckets
  | bucket :: rest =>
      new_buckets ← relocate t bucket new_buckets;
      relocate_all t rest new_buckets
  end.

Definition Resize (t : HashTable) : outcome HashTable :=
  let new_size := to_size_t (table_size t * 2) in
  new_buckets ← relocate_all t (buckets t) (replicate (Z.to_nat new_size) []);
  Returns {| buckets := new_buckets;
             table_size := new_size;
             element_count := element_count t;
             load_refactor := load_refactor t |}.

(** [element_count >= table_size * load_refactor], both integers
    converted to [float] *)
Definition load_reached (t : HashTable) : bool :=
  float_ge (float_of_Z (element_count t))
           (float_mul (float_of_Z (table_size t)) (load_refactor t)).

(** [void Insert(const Key &key, const Value &value)] after its growth
    check: the scan of the chain, and the new head when no node has the
    key *)
Definition Insert_node (t : HashTable) (key : Key) (value : Value) : outcome HashTable :=
  hash ← HashFunction t key;
  bucket ← at_index (buckets t) hash;
  match assign_node bucket key value with
  | Some bucket' =>
      Returns {| buckets := <[index hash := bucket']> (buckets t);
                 table_size := table_size t;
                 element_count := element_count t;
                 load_refactor := load_refactor t |}
  | None =>
      Returns {| buckets := <[index hash := (key, value) :: bucket]> (buckets t);
                 table_size := table_size t;
                 element_count := to_size_t (element_count t + 1);
                 load_refactor := load_refactor t |}
  end.

(** [void Insert(const Key &key, const Value &value)] *)
Definition Insert (t : HashTable) (key : Key) (value : Value) : outcome HashTable :=
  t ← (if load_reached t then Resize t else Returns t);
  Insert_node t key value.

(** [Value &Get(const Key &key)] *)
Definition Get (t : HashTable) (key : Key) : outcome Value :=
  hash ← HashFunction t key;
  bucket ← at_index (buckets t) hash;
  match find_node bucket key with
  | Some v => Returns v
  | None => Throws (out_of_range Get_what)
  end.

(** [void Remove(Key &key)] *)
Definition Remove (t : HashTable) (key : Key) : outcome HashTable :=
  hash ← HashFunction t key;
  bucket ← at_index (buckets t) hash;
  match unlink_node bucket key with
  | Some bucket' =>
      Returns {| buckets := <[index hash := bucket']> (buckets t);
                 table_size := table_size t;
                 element_count := to_size_t (element_count t - 1);
                 load_refactor := load_refactor t |}
  | None => Throws (out_of_range Remove_what)
  end.

(** [void Clear()]: [buckets.clear()] leaves a vector of size 0 *)
Definition Clear (t : HashTable) : HashTable :=
  {| buckets := [];
     table_size := table_size t;
     element_count := 0;
     load_refactor := load_refactor t |}.

(** [bool ContainsKey(const Key &key)] *)
Definition ContainsKey (t : HashTable) (key : Key) : outcome bool :=
  hash ← HashFunction t key;
  bucket ← at_index (buckets t) hash;
  Returns (bool_decide (is_Some (find_node bucket key))).

Definition IsEmpty (t : HashTable) : bool := bool_decide (element_count t = 0).

Definition Size (t : HashTable) : Z := element_count t.

(** the state a table is left in by [HashTable(HashTable &&other)] and by
    [operator=(HashTable &&other)] *)
Definition moved_from : HashTable :=
  {| buckets := []; table_size := 0; element_count := 0; load_refactor := float_0 |}.

(** [HashTable(HashTable &&other)]: the new table and what is left of
    [other] *)
Definition HashTable_move (other : HashTable) : HashTable * HashTable :=
  ({| buckets := buckets other;
      table_size := table_size other;
      element_count := element_count other;
      load_refactor := load_refactor other |},
   moved_from).

(** [operator=(HashTable &&other)], for [this != &other]: the assigned
    table and what is left of [other] *)
Definition move_assign (this other : HashTable) : HashTable * HashTable :=
  let this := Clear this in
  ({| buckets := buckets other;
      table_size := table_size other;
      element_count := element_count other;
      load_refactor := load_refactor other |},
   moved_from).

(** *** The states of the data model *)

(** the stored entries, bucket by bucket *)
Definition entries (t : HashTable) : list (Key * Value) := concat (buckets t).

(** the bucket array has [table_size] slots and every index that
    [HashFunction] computes fits its [int] result *)
Definition usable (t : HashTable) : Prop :=
  length (buckets t) = Z.to_nat (table_size t) /\ 1 <= table_size t <= INT_MAX + 1.

(** the slot of a key: its hash modulo the capacity *)
Definition slot (t : HashTable) (key : Key) : nat := Z.to_nat (std_hash key mod table_size t).

(** every entry is in the chain of its key's slot *)
Definition placed (t : HashTable) : Prop :=
  forall i c, buckets t !! i = Some c -> Forall (fun e => slot t e.1 = i) c.

(** no two entries have the same key *)
Definition distinct_keys (t : HashTable) : Prop := NoDup (entries t).*1.

(** the count is the number of entries, and fits [size_t] *)
Definition counted (t : HashTable) : Prop :=
  element_count t = Z.of_nat (length (entries t)) /\ element_count t < 2 ^ 64.

(** the invariants of the data model together *)
Definition invariant (t : HashTable) : Prop :=
  usable t /\ placed t /\ distinct_keys t /\ counted t.

(** every entry of a bucket array is in the chain that its key's slot
    under the capacity of [t] designates *)
Definition placed_for (t : HashTable) (bs : list chain) : Prop :=
  forall i c, bs !! i = Some c -> Forall (fun e => slot t e.1 = i) c.

(** the states that the constructor and the public operations [Insert],
    [Remove], [Resize] and [Clear] lead to *)
Inductive reachable : HashTable -> Prop :=
| reachable_new size load_factor t :
    HashTable_new size load_factor = Returns t -> reachable t
| reachable_Insert t key value t' :
    reachable t -> Insert t key value = Returns t' -> reachable t'
| reachable_Remove t key t' :
    reachable t -> Remove t key = Returns t' -> reachable t'
| reachable_Resize t t' :
    reachable t -> Resize t = Returns t' -> reachable t'
| reachable_Clear t :
    reachable t -> reachable (Clear t).

End Table.

(** ** [CopyBuckets] over a store of nodes

    [CopyBuckets] keeps two raw pointers, [current] and [previous], while it
    assigns to owning pointers, so what it does depends on which node each
    pointer designates.  Here nodes live in a store, a pointer is an address
    or null, and an owning pointer that is overwritten releases the chain it
    owned. *)

Module Store.
Section Store.

Context {Key Value : Type}.

(** a pointer to a node: an address, or [None] for [nullptr] *)
Abbreviation ptr := (option nat).

Record Node : Type := mkNode { key : Key; value : Value; next : ptr }.

(** the store: the cell at an address holds a live node, or [None] once
    released *)
Abbreviation store := (list (option Node)).

Record Table : Type := mkTable {
  buckets : list ptr;
  table_size : Z;
  element_count : Z;
  load_refactor : float
}.

(** [p->...] on a raw pointer *)
Definition deref (s : store) (a : nat) : outcome Node :=
  match s !! a with
  | Some (Some n) => Returns n
  | _ => Undefined use_after_free
  end.

(** [std::make_unique<Node>(...)] *)
Definition make_unique (s : store) (n : Node) : nat * store :=
  (length s, s ++ [Some n]).

(** the destructor of an owning pointer: the node and, through the
    destructor of its [next], the rest of its chain *)
Fixpoint release (fuel : nat) (s : store) (p : ptr) : store :=
  match fuel, p with
  | S fuel, Some a =>
      match s !! a with
      | Some (Some n) => release fuel (<[a := None]> s) (next n)
      | _ => s
      end
  | _, _ => s
  end.

Definition index (i : Z) : nat := Z.to_nat (to_size_t i).

Definition at_index (bs : list ptr) (i : Z) : outcome ptr :=
  match bs !! index i with
  | Some p => Returns p
  | None => Undefined out_of_bounds
  end.

(** the state of the [while] loop of [CopyBuckets] *)
Record copying : Type := mkCopying {
  nodes : store;
  copy : list ptr;          (* [this->buckets] *)
  current : ptr;
  previous : ptr
}.

(** the body of the loop up to and including the assignment to
    [previous]; [source] is [hash_table.buckets] *)
Definition link_copy (source : list ptr) (i : Z) (c : copying) (cur : nat)
  : outcome copying :=
  n ← deref (nodes c) cur;
  let '(newNode, s) := make_unique (nodes c) (mkNode (key n) (value n) None) in
  st ← match previous c with
       | None =>
           (* buckets[i] = std::move(newNode) *)
           old ← at_index (copy c) i;
           Returns (release (length s) s old, <[index i := Some newNode]> (copy c))
       | Some p =>
           (* previous->next = std::move(newNode) *)
           pn ← deref s p;
           let s := <[p := Some (mkNode (key pn) (value pn) (Some newNode))]> s in
           Returns (release (length s) s (next pn), copy c)
       end;
  previous' ← match previous c with
              | None => at_index source i
              | Some p => pn ← deref st.1 p; Returns (next pn)
              end;
  Returns (mkCopying st.1 st.2 (Some cur) previous').

(** [current = current->next.get()] *)
Definition advance (c : copying) (cur : nat) : outcome copying :=
  n ← deref (nodes c) cur;
  Returns (mkCopying (nodes c) (copy c) (next n) (previous c)).

(** the [while (current != nullptr)] loop; [None] when the fuel runs out *)
Fixpoint copy_chain (fuel : nat) (source : list ptr) (i : Z) (c : copying)
  : option (outcome copying) :=
  match current c with
  | None => Some (Returns c)
  | Some cur =>
      match fuel with
      | O => None
      | S fuel =>
          match link_copy source i c cur with
          | Returns c =>
              match advance c cur with
              | Returns c => copy_chain fuel source i c
              | Throws e => Some (Throws e)
              | Undefined u => Some (Undefined u)
              end
          | Throws e => Some (Throws e)
          | Undefined u => Some (Undefined u)
          end
      end
  end.

(** the [for (int i = 0; i < hash_table.table_size; ++i)] loop, [n] passes
    from [i] on *)
Fixpoint copy_from (fuel : nat) (n : nat) (i : Z) (source : list ptr)
    (s : store) (copy : list ptr) : option (outcome (store * list ptr)) :=
  match n with
  | O => Some (Returns (s, copy))
  | S n =>
      match at_index source i with
      | Returns head =>
          match copy_chain fuel source i (mkCopying s copy head None) with
          | Some (Returns c) =>
              if decide (INT_MAX < i + 1) then Some (Undefined signed_overflow)
              else copy_from fuel n (i + 1) source (nodes c) (Store.copy c)
          | Some (Throws e) => Some (Throws e)
          | Some (Undefined u) => Some (Undefined u)
          | None => None
          end
      | Throws e => Some (Throws e)
      | Undefined u => Some (Undefined u)
      end
  end.

(** [void CopyBuckets(const HashTable &hash_table)] *)
Definition CopyBuckets (fuel : nat) (s : store) (this hash_table : Table)
  : option (outcome (store * Table)) :=
  match copy_from fuel (Z.to_nat (table_size hash_table)) 0
                  (buckets hash_table) s (buckets this) with
  | Some (Returns (s, bs)) =>
      Some (Returns (s, mkTable bs (table_size this) (element_count this)
                                (load_refactor this)))
  | Some (Throws e) => Some (Throws e)
  | Some (Undefined u) => Some (Undefined u)
  | None => None
  end.

(** [HashTable(const HashTable &other)] *)
Definition HashTable_copy (fuel : nat) (s : store) (other : Table)
  : option (outcome (store * Table)) :=
  CopyBuckets fuel s
    (mkTable (replicate (Z.to_nat (table_size other)) None)
             (table_size other) (element_count other) (load_refactor other))
    other.

(** [Clear()]: [buckets.clear()] releases every chain *)
Definition Clear (s : store) (t : Table) : store * Table :=
  (foldl (fun s p => release (length s) s p) s (buckets t),
   mkTable [] (table_size t) 0 (load_refactor t)).

(** [operator=(const HashTable &other)], for [this != &other] *)
Definition copy_assign (fuel : nat) (s : store) (this other : Table)
  : option (outcome (store * Table)) :=
  let '(s, this) := Clear s this in
  CopyBuckets fuel s
    (mkTable (buckets this) (table_size other) (element_count other)
             (load_refactor other))
    other.

(** *** Between chains and the store *)

(** the nodes of a chain, allocated from its tail on *)
Fixpoint store_chain (s : store) (c : list (Key * Value)) : store * ptr :=
  match c with
  | [] => (s, None)
  | (k, v) :: rest =>
      let '(s, p) := store_chain s rest in
      let '(a, s) := make_unique s (mkNode k v p) in
      (s, Some a)
  end.

Fixpoint store_buckets (s : store) (bs : list (list (Key * Value)))
  : store * list ptr :=
  match bs with
  | [] => (s, [])
  | c :: rest =>
      let '(s, p) := store_chain s c in
      let '(s, ps) := store_buckets s rest in
      (s, p :: ps)
  end.

Definition store_table (s : store) (t : @HashTable Key Value) : store * Table :=
  match t with
  | mkHashTable bs size count load =>
      let '(s, ps) := store_buckets s bs in
      (s, mkTable ps size count load)
  end.

(** the chain that an owning pointer holds; [None] when it reaches a
    released node or the fuel runs out *)
Fixpoint load_chain (fuel : nat) (s : store) (p : ptr) : option (list (Key * Value)) :=
  match p with
  | None => Some []
  | Some a =>
      match fuel with
      | O => None
      | S fuel =>
          match s !! a with
          | Some (Some n) => cons (key n, value n) <$> load_chain fuel s (next n)
          | _ => None
          end
      end
  end.

Definition load_table (s : store) (t : Table) : option (@HashTable Key Value) :=
  bs ← mapM (load_chain (length s) s) (buckets t);
  Some (mkHashTable bs (table_size t) (element_count t) (load_refactor t)).

End Store.
End Store.

(** ** [Show]

    What [Show] writes to [std::cout] is the string it returns here. *)

(** [operator<<] on [std::ostream] for a type: the characters it writes *)
Class Print (A : Type) : Type := print : A -> string.

(** [std::cout << i] for an [int]: its decimal digits *)
Definition print_int (i : Z) : string := NilZero.string_of_int (Z.to_int i).

Section Show.

Context {Key Value : Type} `{Print Key} `{Print Value}.

(** the [while (current != nullptr)] loop of [Show] over one chain *)
Fixpoint Show_chain (c : @chain Key Value) : string :=
  match c with
  | [] => EmptyString
  | (k, v) :: next =>
      ("[" ++ print k ++ ", " ++ print v ++ "] -> " ++ Show_chain next)%string
  end.

(** one pass of the [for] loop of [Show]: the line of bucket [i] *)
Definition Show_bucket (i : Z) (c : @chain Key Value) : string :=
  ("Bucket number: " ++ print_int i ++ ": " ++ Show_chain c ++ "nullptr" ++ newline)%string.

(** the [for (int i = 0; i < table_size; ++i)] loop of [Show], [n] passes
    from [i] on, after the text [out] *)
Fixpoint Show_from (n : nat) (i : Z) (bs : list (@chain Key Value)) (out : string)
  : outcome string :=
  match n with
  | O => Returns out
  | S n =>
      bucket ← at_index bs i;
      if decide (INT_MAX < i + 1) then Undefined signed_overflow
      else Show_from n (i + 1) bs (out ++ Show_bucket i bucket)%string
  end.

(** [void Show() const] *)
Definition Show (t : @HashTable Key Value) : outcome string :=
  Show_from (Z.to_nat (table_size t)) 0 (buckets t) EmptyString.

End Show.

(** ** The destructor

    [~HashTable()] calls [Clear()]; over the store of nodes that releases
    every chain. *)

Definition destructor {Key Value : Type}
    (s : list (option (@Store.Node Key Value))) (t : Store.Table)
  : list (option (@Store.Node Key Value)) :=
  (Store.Clear s t).1.

(** ** Chains without collisions in the store *)

(** the pointer [p] owns, in the store [s], the chain [c] of at most one
    node *)
Definition owns_single {Key Value : Type}
    (s : list (option (@Store.Node Key Value))) (p : option nat) (c : list (Key * Value))
  : Prop :=
  match c, p with
  | [], None => True
  | [(k, v)], Some a => s !! a = Some (Some (Store.mkNode k v None))
  | _, _ => False
  end.

(** ** Tables of [int] keys

    [std::hash<int>] of libstdc++ and of libc++ is the conversion of the key
    to [size_t]. *)

#[global] Instance hash_int : Hash Z := to_size_t.

(** [std::cout << key] for an [int] key or value *)
#[global] Instance print_Z : Print Z := print_int.

(** * Properties *)

(** ** Machine numbers *)

Lemma to_size_t_small (z : Z) : 0 <= z < 2 ^ 64 -> to_size_t z = z.
Proof. intros Hz. unfold to_size_t, SIZE_WIDTH. apply Z.mod_small. exact Hz. Qed.

Lemma to_int_small (z : Z) : - 2 ^ 31 <= z < 2 ^ 31 -> to_int z = z.
Proof. intros Hz. unfold to_int. rewrite Z.mod_small; lia. Qed.

Lemma to_size_t_negative (z : Z) : - 2 ^ 31 <= z < 0 -> 2 ^ 64 - 2 ^ 31 <= to_size_t z.
Proof.
  intros Hz. unfold to_size_t, SIZE_WIDTH.
  replace z with (z + 2 ^ 64 + (-1) * 2 ^ 64) by lia.
  rewrite Z.mod_add by lia. rewrite Z.mod_small; lia.
Qed.

Section Properties.

Context {Key Value : Type} `{EqDecision Key} `{Hash Key}.

Implicit Types (t : @HashTable Key Value) (c : @chain Key Value).
Implicit Types (key k : Key) (value v : Value).

(** *** [HashFunction] and the bucket of a key *)

Lemma HashFunction_usable t key :
  1 <= table_size t <= INT_MAX + 1 ->
  HashFunction t key = Returns (std_hash key mod table_size t).
Proof.
  intros Hsize. unfold HashFunction, INT_MAX in *.
  destruct (decide (table_size t = 0)) as [Hz|_]; [lia|].
  f_equal. apply to_int_small.
  pose proof (Z.mod_pos_bound (std_hash key) (table_size t)). lia.
Qed.

Lemma index_slot t key :
  1 <= table_size t <= INT_MAX + 1 ->
  index (std_hash key mod table_size t) = slot t key.
Proof.
  intros Hsize. unfold index, slot, INT_MAX in *. f_equal. apply to_size_t_small.
  pose proof (Z.mod_pos_bound (std_hash key) (table_size t)). lia.
Qed.

Lemma slot_lt t key : 1 <= table_size t -> (slot t key < Z.to_nat (table_size t))%nat.
Proof.
  intros Hsize. unfold slot.
  pose proof (Z.mod_pos_bound (std_hash key) (table_size t)). lia.
Qed.

(** on a usable table the bucket of a key is there *)
Lemma usable_bucket t key :
  usable t -> exists c, buckets t !! slot t key = Some c.
Proof.
  intros [Hlen Hsize]. apply lookup_lt_is_Some_2. rewrite Hlen.
  apply slot_lt. lia.
Qed.

Lemma at_index_usable t key c :
  usable t -> buckets t !! slot t key = Some c ->
  at_index (buckets t) (std_hash key mod table_size t) = Returns c.
Proof.
  intros [Hlen Hsize] Hc. unfold at_index. rewrite index_slot by done.
  by rewrite Hc.
Qed.

(** *** The three scans of a chain *)

Lemma find_node_Some c key v : find_node c key = Some v -> (key, v) ∈ c.
Proof.
  induction c as [|[k' v'] c IH]; simpl; [done|].
  destruct (decide (k' = key)) as [->|Hne]; intros Hf.
  - injection Hf as ->. apply list_elem_of_here.
  - apply list_elem_of_further, IH, Hf.
Qed.

Lemma find_node_None c key : find_node c key = None <-> forall v, (key, v) ∉ c.
Proof.
  induction c as [|[k' v'] c IH]; simpl.
  - split; [intros _ v Hin; inversion Hin | done].
  - destruct (decide (k' = key)) as [->|Hne].
    + split; [done|]. intros Hall. destruct (Hall v'). apply list_elem_of_here.
    + rewrite IH. split; intros Hall v Hin.
      * apply elem_of_cons in Hin as [Heq|Hin]; [congruence|].
        by apply (Hall v).
      * apply (Hall v). by apply list_elem_of_further.
Qed.

Lemma find_node_is_Some c key : is_Some (find_node c key) <-> exists v, (key, v) ∈ c.
Proof.
  split.
  - intros [v Hv]. exists v. by apply find_node_Some.
  - intros [v Hv]. destruct (find_node c key) as [w|] eqn:Hf; [by eexists|].
    exfalso. by apply (proj1 (find_node_None c key) Hf v).
Qed.

Lemma unlink_node_None c key : unlink_node c key = None <-> find_node c key = None.
Proof.
  induction c as [|[k' v'] c IH]; simpl; [done|].
  destruct (decide (k' = key)); [done|].
  by rewrite fmap_None.
Qed.

(** [unlink_node] takes out one node with the key and nothing else *)
Lemma unlink_node_Some c key c' :
  unlink_node c key = Some c' ->
  (exists v, c ≡ₚ (key, v) :: c') /\
  (forall k, k <> key -> find_node c' k = find_node c k) /\
  (forall e, e ∈ c' -> e ∈ c).
Proof.
  revert c'. induction c as [|[k' v'] c IH]; simpl; intros c'; [done|].
  destruct (decide (k' = key)) as [->|Hne].
  - intros [= <-]. split; [by exists v'|]. split.
    + intros k Hk. by destruct (decide (key = k)); [congruence|].
    + intros e He. by apply list_elem_of_further.
  - destruct (unlink_node c key) as [c''|] eqn:Hu; simpl; [|done].
    intros [= <-]. destruct (IH c'' eq_refl) as ([v Hv] & Hother & Hsub).
    split; [exists v; rewrite Hv; apply Permutation_swap|]. split.
    + intros k Hk. simpl. rewrite Hother by done. done.
    + intros e He. apply elem_of_cons in He as [->|He].
      * apply list_elem_of_here.
      * apply list_elem_of_further, Hsub, He.
Qed.

Lemma assign_node_None c key value :
  assign_node c key value = None <-> find_node c key = None.
Proof.
  induction c as [|[k' v'] c IH]; simpl; [done|].
  destruct (decide (k' = key)); [done|].
  by rewrite fmap_None.
Qed.

(** [assign_node] changes the value of one node with the key and nothing
    else *)
Lemma assign_node_Some c key value c' :
  assign_node c key value = Some c' ->
  find_node c' key = Some value /\
  c'.*1 = c.*1 /\
  (forall k, k <> key -> find_node c' k = find_node c k).
Proof.
  revert c'. induction c as [|[k' v'] c IH]; simpl; intros c'; [done|].
  destruct (decide (k' = key)) as [->|Hne].
  - intros [= <-]. simpl. destruct (decide (key = key)); [|done].
    split; [done|]. split; [done|].
    intros k Hk. by destruct (decide (key = k)); [congruence|].
  - destruct (assign_node c key value) as [c''|] eqn:Ha; simpl; [|done].
    intros [= <-]. destruct (IH c'' eq_refl) as (Hfind & Hkeys & Hother).
    simpl. destruct (decide (k' = key)); [done|].
    split; [done|]. split; [by f_equal|].
    intros k Hk. by rewrite Hother.
Qed.

(** *** Entries of the bucket array *)

Lemma NoDup_keys_value (l : list (Key * Value)) key v1 v2 :
  NoDup l.*1 -> (key, v1) ∈ l -> (key, v2) ∈ l -> v1 = v2.
Proof.
  induction l as [|[k0 v0] l IH]; [by inversion 2|].
  rewrite fmap_cons, NoDup_cons, !elem_of_cons. simpl.
  intros [Hnot Hd] [H1|H1] [H2|H2]; simplify_eq; try done.
  - destruct Hnot. apply list_elem_of_fmap. by exists (k0, v2).
  - destruct Hnot. apply list_elem_of_fmap. by exists (k0, v1).
  - by apply IH.
Qed.

Lemma elem_of_entries t (e : Key * Value) :
  e ∈ entries t <-> exists i c, buckets t !! i = Some c /\ e ∈ c.
Proof.
  unfold entries. rewrite list_elem_of_In, in_concat. split.
  - intros (c & Hc & He). apply list_elem_of_In, list_elem_of_lookup in Hc as [i Hi].
    exists i, c. by rewrite list_elem_of_In.
  - intros (i & c & Hi & He). exists c. rewrite <- !list_elem_of_In.
    split; [by eapply list_elem_of_lookup_2|done].
Qed.

(** under [placed], an entry with a key is in the table exactly when it is
    in the chain of the key's slot *)
Lemma placed_entries t key v c :
  placed t -> buckets t !! slot t key = Some c ->
  (key, v) ∈ entries t <-> (key, v) ∈ c.
Proof.
  intros Hplaced Hc. rewrite elem_of_entries. split.
  - intros (i & c' & Hi & He).
    pose proof (proj1 (Forall_forall _ _) (Hplaced i c' Hi) _ He) as Hslot.
    simpl in Hslot. rewrite Hslot in Hc. congruence.
  - intros He. by exists (slot t key), c.
Qed.

Lemma concat_insert_perm {A} (bs : list (list A)) (i : nat) (c c' : list A) (e : A) :
  bs !! i = Some c -> c ≡ₚ e :: c' -> concat bs ≡ₚ e :: concat (<[i:=c']> bs).
Proof.
  revert i. induction bs as [|b bs IH]; intros [|i] Hi Hperm; simplify_eq/=.
  - by rewrite Hperm.
  - rewrite (IH i Hi Hperm). symmetry. apply Permutation_middle.
Qed.

(** *** [Get], [ContainsKey] and [Remove] on a usable table *)

Lemma Get_usable t key c :
  usable t -> buckets t !! slot t key = Some c ->
  Get t key = match find_node c key with
              | Some v => Returns v
              | None => Throws (out_of_range Get_what)
              end.
Proof.
  intros Hu Hc. unfold Get. rewrite HashFunction_usable by apply Hu.
  simpl. by rewrite (at_index_usable t key c).
Qed.

Lemma ContainsKey_usable t key c :
  usable t -> buckets t !! slot t key = Some c ->
  ContainsKey t key = Returns (bool_decide (is_Some (find_node c key))).
Proof.
  intros Hu Hc. unfold ContainsKey. rewrite HashFunction_usable by apply Hu.
  simpl. by rewrite (at_index_usable t key c).
Qed.

Lemma Remove_usable t key c :
  usable t -> buckets t !! slot t key = Some c ->
  Remove t key = match unlink_node c key with
                 | Some c' =>
                     Returns {| buckets := <[slot t key := c']> (buckets t);
                                table_size := table_size t;
                                element_count := to_size_t (element_count t - 1);
                                load_refactor := load_refactor t |}
                 | None => Throws (out_of_range Remove_what)
                 end.
Proof.
  intros Hu Hc. unfold Remove. rewrite HashFunction_usable by apply Hu.
  simpl. rewrite (at_index_usable t key c) by done. simpl.
  by rewrite index_slot by apply Hu.
Qed.

(** [Remove] keeps a usable table usable and a placed one placed *)
Lemma Remove_preserves t key t' :
  usable t -> placed t -> Remove t key = Returns t' -> usable t' /\ placed t'.
Proof.
  intros Hu Hp HR. destruct (usable_bucket t key Hu) as [c Hc].
  rewrite (Remove_usable t key c Hu Hc) in HR.
  destruct (unlink_node c key) as [c'|] eqn:Hun; [|done].
  injection HR as <-. split.
  - destruct Hu as [Hlen Hsize]. split; simpl; [by rewrite length_insert|done].
  - intros i b Hb. simpl in Hb. unfold slot. simpl. fold (slot t).
    destruct (decide (i = slot t key)) as [->|Hne].
    + rewrite list_lookup_insert_eq in Hb by (by eapply lookup_lt_Some).
      injection Hb as <-. apply Forall_forall. intros e He.
      apply (proj1 (Forall_forall _ _) (Hp _ _ Hc)).
      by apply (unlink_node_Some c key c' Hun).
    + rewrite list_lookup_insert_ne in Hb by done. by apply Hp.
Qed.

(** [Get] returns on a key that the table has *)
Lemma Get_returns_stored t key :
  usable t -> placed t -> (exists v, (key, v) ∈ entries t) -> returned (Get t key).
Proof.
  intros Hu Hp [v Hv]. destruct (usable_bucket t key Hu) as [c Hc].
  apply (placed_entries t key v c Hp Hc) in Hv. rewrite (Get_usable t key c Hu Hc).
  destruct (find_node c key) as [w|] eqn:Hf; [by exists w|].
  by destruct (proj1 (find_node_None c key) Hf v).
Qed.

(** C8, amended: on a usable table whose entries are in the chains of
    their slots (a bucket array of [table_size] chains, [table_size]
    between 1 and 2^31), [Get] returns a stored value of the key when
    the table has an entry with it, the stored one when keys are
    distinct, and throws [std::out_of_range] exactly when it has none;
    [Remove] throws exactly when the key is absent, so also on an empty
    table, and otherwise unlinks one entry with that key, decrements the
    count by one and leaves every other entry, the capacity and the load
    factor as they were. *)
Theorem Get_Remove_key_not_found t key :
  usable t -> placed t ->
  (forall v, Get t key = Returns v -> (key, v) ∈ entries t) /\
  ((exists v, (key, v) ∈ entries t) -> returned (Get t key)) /\
  (distinct_keys t -> forall v, (key, v) ∈ entries t -> Get t key = Returns v) /\
  ((forall v, (key, v) ∉ entries t) <-> Get t key = Throws (out_of_range Get_what)) /\
  ((forall v, (key, v) ∉ entries t) <-> Remove t key = Throws (out_of_range Remove_what)) /\
  (entries t = [] -> Remove t key = Throws (out_of_range Remove_what)) /\
  ((exists v, (key, v) ∈ entries t) ->
     exists t' v,
       Remove t key = Returns t' /\
       entries t ≡ₚ (key, v) :: entries t' /\
       element_count t' = to_size_t (element_count t - 1) /\
       (1 <= element_count t < 2 ^ 64 -> element_count t' = element_count t - 1) /\
       table_size t' = table_size t /\
       load_refactor t' = load_refactor t /\
       usable t' /\ placed t' /\
       (forall k, k <> key -> Get t' k = Get t k)).
Proof.
  intros Hu Hp. destruct (usable_bucket t key Hu) as [c Hc].
  pose proof (Get_usable t key c Hu Hc) as HG.
  pose proof (Remove_usable t key c Hu Hc) as HR.
  assert (Hin : forall v, (key, v) ∈ entries t <-> (key, v) ∈ c)
    by (intros v; by apply placed_entries).
  assert (Hnone : (forall v, (key, v) ∉ entries t) <-> find_node c key = None).
  { rewrite find_node_None. by setoid_rewrite Hin. }
  repeat split.
  - intros v Hv. apply Hin, find_node_Some. rewrite HG in Hv.
    by destruct (find_node c key); simplify_eq.
  - intros [v Hv]. apply Hin in Hv. rewrite HG.
    destruct (find_node c key) as [w|] eqn:Hf; [by exists w|].
    by destruct (proj1 (find_node_None c key) Hf v).
  - intros Hd v Hv. rewrite HG.
    destruct (find_node c key) as [w|] eqn:Hf.
    + f_equal. apply find_node_Some, Hin in Hf.
      by apply (NoDup_keys_value (entries t) key).
    + apply Hin in Hv. by destruct (proj1 (find_node_None c key) Hf v).
  - intros Ha. apply Hnone in Ha. by rewrite HG, Ha.
  - intros HT. apply Hnone. rewrite HG in HT. by destruct (find_node c key).
  - intros Ha. apply Hnone, unlink_node_None in Ha. by rewrite HR, Ha.
  - intros HT. apply Hnone, unlink_node_None. rewrite HR in HT.
    by destruct (unlink_node c key).
  - intros He. rewrite HR.
    assert (Hf : find_node c key = None).
    { apply Hnone. intros v. rewrite He. apply not_elem_of_nil. }
    apply unlink_node_None in Hf. by rewrite Hf.
  - intros [v Hv]. apply Hin in Hv.
    destruct (unlink_node c key) as [c'|] eqn:Hun.
    2:{ apply unlink_node_None in Hun.
        by destruct (proj1 (find_node_None c key) Hun v). }
    destruct (unlink_node_Some c key c' Hun) as ([w Hperm] & Hother & Hsub).
    destruct (Remove_preserves t key _ Hu Hp HR) as [Hu' Hp'].
    eexists _, w. split; [exact HR|].
    split; [by apply concat_insert_perm with c|].
    split; [done|]. split; [intros Hcount; by apply to_size_t_small; lia|].
    split; [done|]. split; [done|]. split; [done|]. split; [done|].
    intros k Hk. destruct (usable_bucket t k Hu) as [b Hb].
    rewrite (Get_usable t k b Hu Hb).
    rewrite (Get_usable _ k (if decide (slot t k = slot t key) then c' else b) Hu').
    + destruct (decide (slot t k = slot t key)) as [Heq|Hne]; [|done].
      rewrite Heq in Hb. simplify_eq. by rewrite Hother.
    + unfold slot at 1. simpl. fold (slot t k).
      destruct (decide (slot t k = slot t key)) as [Heq|Hne].
      * rewrite Heq. apply list_lookup_insert_eq. by eapply lookup_lt_Some.
      * by rewrite list_lookup_insert_ne.
Qed.

(** *** Construction *)

Lemma entries_replicate_nil (n : nat) : concat (replicate n (@nil (Key * Value))) = [].
Proof. induction n as [|n IH]; [done|]. exact IH. Qed.

(** up to [max_size()] buckets, construction returns *)
Lemma HashTable_new_returns (size : Z) (load_factor : float) :
  size <= max_size ->
  HashTable_new (Key:=Key) (Value:=Value) size load_factor
  = Returns (mkHashTable (replicate (Z.to_nat size) []) size 0 load_factor).
Proof.
  intros Hsize. unfold HashTable_new.
  destruct (decide (max_size < size)) as [Hbig|_]; [lia|done].
Qed.

(** C9, amended: construction does not validate its arguments; for every
    initial capacity (a [size_t]) up to [max_size()] and every load
    factor, zero and values outside (0, 1] included, it returns a table
    with the given capacity and load factor, that many empty buckets and
    count 0; for a larger initial capacity [buckets.resize] throws
    [std::length_error], whatever the load factor. *)
Theorem HashTable_new_accepts_all (size : Z) (load_factor : float) :
  0 <= size < 2 ^ 64 ->
  (size <= max_size ->
   exists t, HashTable_new (Key:=Key) (Value:=Value) size load_factor = Returns t /\
     table_size t = size /\
     load_refactor t = load_factor /\
     element_count t = 0 /\
     length (buckets t) = Z.to_nat size /\
     entries t = []) /\
  (max_size < size ->
   HashTable_new (Key:=Key) (Value:=Value) size load_factor = Throws length_error).
Proof.
  intros _. unfold HashTable_new. split; intros Hsize.
  - destruct (decide (max_size < size)) as [Hbig|_]; [lia|].
    eexists. split; [reflexivity|]. simpl.
    repeat split; [apply length_replicate | apply entries_replicate_nil].
  - by destruct (decide (max_size < size)).
Qed.

(** a new table of a capacity between 1 and 2^31 is in every invariant of
    the data model *)
Lemma HashTable_new_valid (size : Z) (load_factor : float) t :
  1 <= size <= INT_MAX + 1 ->
  HashTable_new size load_factor = Returns t ->
  usable t /\ placed t /\ distinct_keys t /\ counted t.
Proof.
  intros Hsize. rewrite HashTable_new_returns by (unfold max_size, INT_MAX in *; lia).
  intros [= <-]. unfold usable, placed, distinct_keys, counted, entries.
  simpl. rewrite entries_replicate_nil, length_replicate.
  split; [done|]. split; [|split; [constructor|done]].
  intros i c [-> _]%lookup_replicate. constructor.
Qed.

(** C10, amended: a newly constructed table of a capacity between 1 and
    2^31, with any load factor, is empty: [Size] is 0, [IsEmpty] is true,
    [ContainsKey] is false for every key and [Get] throws for every
    key. *)
Theorem HashTable_new_is_empty (size : Z) (load_factor : float) key :
  1 <= size <= INT_MAX + 1 ->
  exists t, HashTable_new (Key:=Key) (Value:=Value) size load_factor = Returns t /\
    Size t = 0 /\
    IsEmpty t = true /\
    ContainsKey t key = Returns false /\
    Get t key = Throws (out_of_range Get_what).
Proof.
  intros Hsize. eexists.
  split; [apply HashTable_new_returns; unfold max_size, INT_MAX in *; lia|].
  set (t := mkHashTable _ _ _ _).
  destruct (HashTable_new_valid size load_factor t Hsize) as (Hu & _).
  { apply HashTable_new_returns. unfold max_size, INT_MAX in *. lia. }
  assert (Hc : buckets t !! slot t key = Some []).
  { apply lookup_replicate_2. apply (slot_lt t key). simpl. lia. }
  split; [done|]. split; [done|].
  by rewrite (ContainsKey_usable t key [] Hu Hc), (Get_usable t key [] Hu Hc).
Qed.

(** *** [Resize] *)

Lemma concat_cons_at (bs : list chain) (i : nat) c (e : Key * Value) :
  bs !! i = Some c -> concat (<[i := e :: c]> bs) ≡ₚ e :: concat bs.
Proof.
  intros Hi.
  rewrite (concat_insert_perm (<[i := e :: c]> bs) i (e :: c) c e).
  - by rewrite list_insert_insert_eq, list_insert_id.
  - apply list_lookup_insert_eq. by eapply lookup_lt_Some.
  - done.
Qed.

(** the loop over one old chain moves each of its nodes to the chain of
    the slot that the key has under the capacity of [t] *)
Lemma relocate_returns t c (nb : list chain) :
  1 <= table_size t <= INT_MAX + 1 ->
  (Z.to_nat (table_size t) <= length nb)%nat ->
  exists nb', relocate t c nb = Returns nb' /\
    length nb' = length nb /\
    concat nb' ≡ₚ c ++ concat nb /\
    (placed_for t nb -> placed_for t nb').
Proof.
  intros Hsize. revert nb. induction c as [|[k v] c IH]; intros nb Hlen.
  - exists nb. by repeat split.
  - simpl. rewrite HashFunction_usable by done. simpl.
    destruct (lookup_lt_is_Some_2 nb (slot t k)) as [b Hb].
    { pose proof (slot_lt t k). lia. }
    unfold at_index. rewrite index_slot by done. rewrite Hb. simpl.
    destruct (IH (<[slot t k := (k, v) :: b]> nb)) as (nb' & HR & Hl & Hperm & Hpl).
    { by rewrite length_insert. }
    exists nb'. split; [done|]. split; [by rewrite Hl, length_insert|].
    split.
    + rewrite Hperm, (concat_cons_at nb _ b) by done.
      symmetry. apply Permutation_middle.
    + intros Hnb. apply Hpl. intros i b' Hb'.
      destruct (decide (i = slot t k)) as [->|Hne].
      * rewrite list_lookup_insert_eq in Hb' by (by eapply lookup_lt_Some).
        injection Hb' as <-. constructor; [done|]. by apply Hnb.
      * rewrite list_lookup_insert_ne in Hb' by done. by apply Hnb.
Qed.

Lemma relocate_all_returns t (bs nb : list chain) :
  1 <= table_size t <= INT_MAX + 1 ->
  (Z.to_nat (table_size t) <= length nb)%nat ->
  exists nb', relocate_all t bs nb = Returns nb' /\
    length nb' = length nb /\
    concat nb' ≡ₚ concat bs ++ concat nb /\
    (placed_for t nb -> placed_for t nb').
Proof.
  intros Hsize. revert nb. induction bs as [|c bs IH]; intros nb Hlen.
  - exists nb. by repeat split.
  - simpl. destruct (relocate_returns t c nb Hsize Hlen) as (nb1 & -> & Hl1 & Hp1 & Hpl1).
    simpl. destruct (IH nb1) as (nb' & HR & Hl & Hperm & Hpl); [lia|].
    exists nb'. split; [done|]. split; [lia|]. split.
    + rewrite Hperm, Hp1, (assoc_L (++)).
      apply Permutation_app_tail, Permutation_app_comm.
    + intros Hnb. by apply Hpl, Hpl1.
Qed.

(** [Resize] on a usable table returns: the capacity is doubled, the
    count, the load factor and the entries are kept, and every entry is
    in the chain of the slot that its key had under the old capacity *)
Lemma Resize_usable t :
  usable t ->
  exists t', Resize t = Returns t' /\
    table_size t' = 2 * table_size t /\
    element_count t' = element_count t /\
    load_refactor t' = load_refactor t /\
    length (buckets t') = Z.to_nat (table_size t') /\
    entries t' ≡ₚ entries t /\
    placed_for t (buckets t').
Proof.
  intros [Hlen Hsize]. unfold Resize.
  assert (Hnew : to_size_t (table_size t * 2) = 2 * table_size t).
  { unfold INT_MAX in Hsize. rewrite to_size_t_small; lia. }
  rewrite Hnew.
  destruct (relocate_all_returns t (buckets t)
              (replicate (Z.to_nat (2 * table_size t)) []) Hsize)
    as (nb & -> & Hl & Hperm & Hpl).
  { rewrite length_replicate. lia. }
  eexists. split; [reflexivity|]. simpl.
  rewrite length_replicate in Hl.
  split; [done|]. split; [done|]. split; [done|]. split; [done|]. split.
  - unfold entries. simpl. by rewrite Hperm, entries_replicate_nil, (right_id_L [] (++)).
  - apply Hpl. intros i c [-> _]%lookup_replicate. constructor.
Qed.

(** *** [Insert] *)

Lemma at_index_Returns (bs : list chain) (i : Z) c :
  at_index bs i = Returns c <-> bs !! index i = Some c.
Proof.
  unfold at_index. destruct (bs !! index i); split; intros Hc; by simplify_eq.
Qed.

(** the growth check done, [Insert] stores the value where [Get] and
    [ContainsKey] find it *)
Lemma Insert_node_Get t key value t' :
  Insert_node t key value = Returns t' ->
  Get t' key = Returns value /\ ContainsKey t' key = Returns true.
Proof.
  unfold Insert_node, Get, ContainsKey.
  destruct (HashFunction t key) as [h| |] eqn:Hh; [simpl|done..].
  destruct (at_index (buckets t) h) as [b| |] eqn:Hb; [simpl|done..].
  apply at_index_Returns in Hb. pose proof (lookup_lt_Some _ _ _ Hb) as Hlt.
  assert (Hfound : forall c, find_node c key = Some value ->
            forall bs', bs' = <[index h := c]> (buckets t) ->
            (bucket ← at_index bs' h;
             match find_node bucket key with
             | Some v => Returns v
             | None => Throws (out_of_range Get_what)
             end) = Returns value /\
            (bucket ← at_index bs' h;
             Returns (bool_decide (is_Some (find_node bucket key)))) = Returns true).
  { intros c Hc bs' ->. unfold at_index.
    rewrite list_lookup_insert_eq by done. simpl. rewrite Hc. by split. }
  destruct (assign_node b key value) as [b'|] eqn:Ha; intros [= <-];
    change (HashFunction _ key) with (HashFunction t key); rewrite Hh; simpl.
  - apply (Hfound b'); [|done]. by apply (assign_node_Some b key value b').
  - apply (Hfound ((key, value) :: b)); [|done]. simpl.
    by destruct (decide (key = key)).
Qed.

Lemma Insert_node_size t key value t' :
  Insert_node t key value = Returns t' ->
  table_size t' = table_size t /\
  load_refactor t' = load_refactor t /\
  length (buckets t') = length (buckets t) /\
  (element_count t' = element_count t \/
   element_count t' = to_size_t (element_count t + 1)).
Proof.
  unfold Insert_node.
  destruct (HashFunction t key) as [h| |]; [simpl|done..].
  destruct (at_index (buckets t) h) as [b| |]; [simpl|done..].
  destruct (assign_node b key value); intros [= <-]; simpl;
    rewrite length_insert; auto.
Qed.

Lemma Insert_node_usable t key value c :
  usable t -> buckets t !! slot t key = Some c ->
  Insert_node t key value =
  Returns match assign_node c key value with
          | Some c' =>
              {| buckets := <[slot t key := c']> (buckets t);
                 table_size := table_size t;
                 element_count := element_count t;
                 load_refactor := load_refactor t |}
          | None =>
              {| buckets := <[slot t key := (key, value) :: c]> (buckets t);
                 table_size := table_size t;
                 element_count := to_size_t (element_count t + 1);
                 load_refactor := load_refactor t |}
          end.
Proof.
  intros Hu Hc. unfold Insert_node. rewrite HashFunction_usable by apply Hu.
  simpl. rewrite (at_index_usable t key c) by done. simpl.
  rewrite index_slot by apply Hu. by destruct (assign_node c key value).
Qed.

(** a key that the table does not have gets a new node, and the count
    goes up by one *)
Lemma Insert_node_absent t key value :
  usable t -> (forall v, (key, v) ∉ entries t) ->
  exists t', Insert_node t key value = Returns t' /\
    table_size t' = table_size t /\
    load_refactor t' = load_refactor t /\
    element_count t' = to_size_t (element_count t + 1) /\
    entries t' ≡ₚ (key, value) :: entries t /\
    usable t'.
Proof.
  intros Hu Habsent. destruct (usable_bucket t key Hu) as [c Hc].
  rewrite (Insert_node_usable t key value c Hu Hc).
  assert (Hnone : assign_node c key value = None).
  { apply assign_node_None, find_node_None. intros v Hv.
    apply (Habsent v), elem_of_entries. by exists (slot t key), c. }
  rewrite Hnone. eexists. split; [reflexivity|]. simpl.
  split; [done|]. split; [done|]. split; [done|]. split.
  - by apply concat_cons_at.
  - destruct Hu as [Hlen Hsize]. split; simpl; [by rewrite length_insert|done].
Qed.

Lemma Resize_size t t' :
  Resize t = Returns t' -> table_size t' = to_size_t (table_size t * 2).
Proof.
  unfold Resize. destruct (relocate_all t (buckets t) _); [simpl|done..].
  by intros [= <-].
Qed.

(** on a usable table whose doubled capacity still fits an [int],
    [Insert] returns *)
Lemma Insert_returns t key value :
  usable t -> 2 * table_size t <= INT_MAX + 1 -> returned (Insert t key value).
Proof.
  intros Hu Hfits. unfold Insert.
  assert (Hnode : forall t1, usable t1 -> returned (Insert_node t1 key value)).
  { intros t1 Hu1. destruct (usable_bucket t1 key Hu1) as [c Hc].
    rewrite (Insert_node_usable t1 key value c Hu1 Hc). by eexists. }
  destruct (load_reached t); [|by apply Hnode].
  destruct (Resize_usable t Hu) as (t1 & -> & Hsize & _ & _ & Hlen & _).
  simpl. apply Hnode. split; [done|]. destruct Hu as [_ Hs]. lia.
Qed.

(** C3, amended: [Insert] checks for growth before it stores the key, and
    the check is [element_count >= table_size * load_refactor] in [float]
    arithmetic: when it holds the capacity is doubled first, otherwise it
    is kept, and the key is then found under the capacity of the result.
    On a table constructed with capacity 2 and load factor 0.75 the inserts
    of the first and of the second distinct key find the check false (0
    and 1 are below 1.5) and keep capacity 2, with counts 1 and 2; the
    insert of the third distinct key finds it true and stores the key at
    capacity 4, with count 3. *)
Theorem Insert_growth_check :
  (forall t key value t',
     Insert t key value = Returns t' ->
     table_size t' =
       (if load_reached t then to_size_t (table_size t * 2) else table_size t) /\
     Get t' key = Returns value) /\
  (forall k1 v1 k2 v2 k3 v3,
     k1 <> k2 -> k1 <> k3 -> k2 <> k3 ->
     exists t0 t1 t2 t3,
       HashTable_new (Key:=Key) (Value:=Value) 2 float_0_75 = Returns t0 /\
       Insert t0 k1 v1 = Returns t1 /\
       Insert t1 k2 v2 = Returns t2 /\
       Insert t2 k3 v3 = Returns t3 /\
       load_reached t0 = false /\ table_size t1 = 2 /\ element_count t1 = 1 /\
       load_reached t1 = false /\ table_size t2 = 2 /\ element_count t2 = 2 /\
       load_reached t2 = true /\ table_size t3 = 4 /\ element_count t3 = 3).
Proof.
  split.
  - intros t key value t'. unfold Insert.
    destruct (load_reached t).
    + destruct (Resize t) as [t1| |] eqn:HR; [simpl|done..]. intros HI.
      destruct (Insert_node_size t1 key value t' HI) as (-> & _).
      split; [by apply Resize_size|]. by apply (Insert_node_Get t1).
    + simpl. intros HI.
      destruct (Insert_node_size t key value t' HI) as (-> & _).
      split; [done|]. by apply (Insert_node_Get t).
  - intros k1 v1 k2 v2 k3 v3 H12 H13 H23.
    set (t0 := mkHashTable (replicate (Z.to_nat 2) []) 2 0 float_0_75
               : @HashTable Key Value).
    assert (Hnew : HashTable_new 2 float_0_75 = Returns t0) by reflexivity.
    assert (Hs0 : table_size t0 = 2) by reflexivity.
    assert (Hl0 : load_refactor t0 = float_0_75) by reflexivity.
    assert (Hc0 : element_count t0 = 0) by reflexivity.
    assert (He0 : entries t0 = []) by reflexivity.
    destruct (HashTable_new_valid 2 float_0_75 t0) as (Hu0 & _); [done..|].
    assert (Hload : forall t size count,
              table_size t = size -> element_count t = count ->
              load_refactor t = float_0_75 ->
              load_reached t =
              float_ge (float_of_Z count) (float_mul (float_of_Z size) float_0_75)).
    { intros t size count Hs Hc Hl. unfold load_reached. by rewrite Hs, Hc, Hl. }
    (* the first key *)
    assert (Hr0 : load_reached t0 = false)
      by (rewrite (Hload t0 2 0) by done; vm_compute; reflexivity).
    destruct (Insert_node_absent t0 k1 v1 Hu0)
      as (t1 & HI1 & Hs1 & Hl1 & Hc1 & He1 & Hu1).
    { intros v. rewrite He0. apply not_elem_of_nil. }
    rewrite Hs0 in Hs1. rewrite Hl0 in Hl1. rewrite Hc0 in Hc1. rewrite He0 in He1.
    change (to_size_t (0 + 1)) with 1 in Hc1.
    (* the second key *)
    assert (Hr1 : load_reached t1 = false)
      by (rewrite (Hload t1 2 1) by done; vm_compute; reflexivity).
    destruct (Insert_node_absent t1 k2 v2 Hu1)
      as (t2 & HI2 & Hs2 & Hl2 & Hc2 & He2 & Hu2).
    { intros v. rewrite He1. intros [=]%list_elem_of_singleton. congruence. }
    rewrite Hs1 in Hs2. rewrite Hl1 in Hl2. rewrite Hc1 in Hc2. rewrite He1 in He2.
    change (to_size_t (1 + 1)) with 2 in Hc2.
    (* the third key: the table grows first *)
    assert (Hr2 : load_reached t2 = true)
      by (rewrite (Hload t2 2 2) by done; vm_compute; reflexivity).
    destruct (Resize_usable t2 Hu2) as (g & HR & Hsg & Hcg & Hlg & Hleng & Heg & _).
    rewrite Hs2 in Hsg. rewrite Hc2 in Hcg. rewrite He2 in Heg.
    destruct (Insert_node_absent g k3 v3)
      as (t3 & HI3 & Hs3 & Hl3 & Hc3 & He3 & Hu3).
    { split; [done|]. rewrite Hsg. unfold INT_MAX. lia. }
    { intros v. rewrite Heg, !elem_of_cons.
      intros [[=]|[[=]|[]%elem_of_nil]]; congruence. }
    rewrite Hsg in Hs3. rewrite Hcg in Hc3.
    change (to_size_t (2 + 1)) with 3 in Hc3.
    exists t0, t1, t2, t3. unfold Insert. rewrite Hr0, Hr1, Hr2, HR. simpl.
    by repeat split.
Qed.

(** *** What [Resize] does to lookups *)

(** C1: [Resize] doubles the capacity and keeps the count and the
    entries, but it files every entry under the slot of the old capacity:
    the lookup of a stored key whose slot under the new capacity differs
    throws, although the entry is still in the table. *)
Theorem Resize_files_under_old_capacity t t' key v :
  usable t -> placed t -> 2 * table_size t <= INT_MAX + 1 ->
  Resize t = Returns t' ->
  (key, v) ∈ entries t ->
  slot t' key <> slot t key ->
  table_size t' = 2 * table_size t /\
  element_count t' = element_count t /\
  entries t' ≡ₚ entries t /\
  returned (Get t key) /\
  Get t' key = Throws (out_of_range Get_what).
Proof.
  intros Hu Hp Hfits HR Hin Hslot.
  destruct (Resize_usable t Hu) as (t'' & HR' & Hsize & Hcount & _ & Hlen & Hperm & Hold).
  rewrite HR in HR'. injection HR' as <-.
  split; [done|]. split; [done|]. split; [done|]. split.
  - apply (Get_returns_stored t key Hu Hp). by exists v.
  - assert (Hu' : usable t').
    { split; [done|]. destruct Hu as [_ Hs]. lia. }
    destruct (usable_bucket t' key Hu') as [c Hc].
    rewrite (Get_usable t' key c Hu' Hc).
    assert (Hnone : find_node c key = None); [|by rewrite Hnone].
    apply find_node_None. intros w Hw.
    by apply Hslot, eq_sym, (proj1 (Forall_forall _ _) (Hold _ _ Hc) (key, w)).
Qed.

(** *** [Clear] *)

(** C5: [Clear] sets the count to 0 and keeps [table_size] and the load
    factor, but it leaves a bucket array of length 0: on a table whose
    [table_size] is not 0 every keyed operation then indexes the empty
    array, and so does [Insert] unless its growth check fires. *)
Theorem Clear_leaves_no_bucket t key value :
  table_size t <> 0 ->
  element_count (Clear t) = 0 /\
  table_size (Clear t) = table_size t /\
  load_refactor (Clear t) = load_refactor t /\
  buckets (Clear t) = [] /\
  ContainsKey (Clear t) key = Undefined out_of_bounds /\
  Get (Clear t) key = Undefined out_of_bounds /\
  Remove (Clear t) key = Undefined out_of_bounds /\
  (load_reached (Clear t) = false ->
   Insert (Clear t) key value = Undefined out_of_bounds).
Proof.
  intros Hsize. repeat split.
  - unfold ContainsKey, HashFunction. simpl. by destruct (decide (table_size t = 0)).
  - unfold Get, HashFunction. simpl. by destruct (decide (table_size t = 0)).
  - unfold Remove, HashFunction. simpl. by destruct (decide (table_size t = 0)).
  - intros Hload. unfold Insert. rewrite Hload. simpl.
    unfold Insert_node, HashFunction. simpl. by destruct (decide (table_size t = 0)).
Qed.

(** *** Moves *)

(** C6, amended: move construction and move assignment hand the bucket
    array, capacity, count and load factor of the source to the
    destination and leave the source with no bucket, capacity 0, count 0
    and load factor 0.  [Size] is 0 and [IsEmpty] is true on it and [Clear]
    changes nothing, but [Insert], [Get], [Remove] and [ContainsKey] take a
    modulus by zero. *)
Theorem move_leaves_moved_from (this other : @HashTable Key Value) key value :
  HashTable_move other = (other, moved_from) /\
  move_assign this other = (other, moved_from) /\
  buckets (@moved_from Key Value) = [] /\
  table_size (@moved_from Key Value) = 0 /\
  element_count (@moved_from Key Value) = 0 /\
  load_refactor (@moved_from Key Value) = float_0 /\
  Size (@moved_from Key Value) = 0 /\
  IsEmpty (@moved_from Key Value) = true /\
  Clear (@moved_from Key Value) = moved_from /\
  Get moved_from key = Undefined (A:=Value) modulo_by_zero /\
  ContainsKey (Value:=Value) moved_from key = Undefined modulo_by_zero /\
  Remove (Value:=Value) moved_from key = Undefined modulo_by_zero /\
  Insert moved_from key value = Undefined modulo_by_zero.
Proof.
  destruct other as [bs size count load]. by repeat split.
Qed.

(** *** Indices that do not fit an [int] *)

Lemma bind_Returns {A B} (a : A) (f : A -> outcome B) : (Returns a ≫= f) = f a.
Proof. reflexivity. Qed.

Lemma bind_Undefined {A B} (u : undefined) (f : A -> outcome B) :
  (Undefined u ≫= f) = Undefined u.
Proof. reflexivity. Qed.

(** a hash whose remainder is 2^31 or more becomes a negative [int], and
    the negative [int] an index past the end of the bucket array *)
Lemma HashFunction_overflows t key :
  INT_MAX + 1 <= std_hash key mod table_size t < 2 ^ 32 ->
  length (buckets t) = Z.to_nat (table_size t) ->
  1 <= table_size t <= 2 ^ 64 - 2 ^ 31 ->
  exists i, HashFunction t key = Returns i /\ i < 0 /\
    at_index (buckets t) i = Undefined out_of_bounds.
Proof.
  unfold INT_MAX. intros Hrem Hlen Hsize.
  exists (std_hash key mod table_size t - 2 ^ 32). split; [|split; [lia|]].
  - unfold HashFunction. destruct (decide (table_size t = 0)) as [Hz|_]; [lia|].
    f_equal. unfold to_int.
    replace (std_hash key mod table_size t + 2 ^ 31)
      with (std_hash key mod table_size t - 2 ^ 31 + 1 * 2 ^ 32) by lia.
    rewrite Z.mod_add by lia. rewrite Z.mod_small; lia.
  - unfold at_index, index.
    pose proof (to_size_t_negative (std_hash key mod table_size t - 2 ^ 32)) as Hneg.
    rewrite lookup_ge_None_2; [done|]. rewrite Hlen. lia.
Qed.

Lemma keyed_operations_overflow t key :
  INT_MAX + 1 <= std_hash key mod table_size t < 2 ^ 32 ->
  length (buckets t) = Z.to_nat (table_size t) ->
  1 <= table_size t <= 2 ^ 64 - 2 ^ 31 ->
  Get t key = Undefined out_of_bounds /\
  ContainsKey t key = Undefined out_of_bounds /\
  Remove t key = Undefined out_of_bounds.
Proof.
  intros Hrem Hlen Hsize.
  destruct (HashFunction_overflows t key Hrem Hlen Hsize) as (i & Hi & _ & Hat).
  unfold Get, ContainsKey, Remove.
  by rewrite Hi, !bind_Returns, Hat, !bind_Undefined.
Qed.

(** *** The invariants of the data model and the operations *)

Lemma assign_node_None_inv c key value c' :
  assign_node c key value = Some c' -> (forall v, (key, v) ∉ c) -> False.
Proof.
  intros Ha Habsent. apply (proj2 (find_node_None c key)) in Habsent.
  apply (proj2 (assign_node_None c key value)) in Habsent. congruence.
Qed.

(** a table has an entry with a given key, or has none *)
Lemma classic_entry t key :
  (exists v, (key, v) ∈ entries t) \/ (forall v, (key, v) ∉ entries t).
Proof.
  destruct (decide (key ∈ (entries t).*1)) as [Hin|Hout].
  - left. apply list_elem_of_fmap in Hin as ([k v] & -> & Hin). by exists v.
  - right. intros v Hv. apply Hout, list_elem_of_fmap. by exists (key, v).
Qed.

Lemma concat_insert_keys (bs : list chain) (i : nat) c c' :
  bs !! i = Some c -> c'.*1 = c.*1 -> (concat (<[i:=c']> bs)).*1 = (concat bs).*1.
Proof.
  revert i. induction bs as [|b bs IH]; intros [|i] Hi Hkeys; simplify_eq/=.
  - by rewrite !fmap_app, Hkeys.
  - by rewrite !fmap_app, (IH i).
Qed.

Lemma key_of_entries t key :
  placed t -> forall c, buckets t !! slot t key = Some c ->
  key ∈ (entries t).*1 -> is_Some (find_node c key).
Proof.
  intros Hp c Hc ([k v] & -> & Hin)%list_elem_of_fmap. simpl.
  apply find_node_is_Some. exists v. by apply (placed_entries t k v c).
Qed.

(** [Insert] without growth keeps the invariants: an entry with the key
    keeps its place and gets the value, a new key gets a new entry and
    raises the count by one, and the other keys are found as before *)
Theorem Insert_node_preserves t key value t' :
  invariant t -> element_count t + 1 < 2 ^ 64 ->
  Insert_node t key value = Returns t' ->
  invariant t' /\
  table_size t' = table_size t /\
  (key, value) ∈ entries t' /\
  (forall k, k <> key -> Get t' k = Get t k) /\
  ((exists v, (key, v) ∈ entries t) ->
     element_count t' = element_count t /\ (entries t').*1 = (entries t).*1) /\
  ((forall v, (key, v) ∉ entries t) ->
     element_count t' = element_count t + 1 /\
     entries t' ≡ₚ (key, value) :: entries t).
Proof.
  intros (Hu & Hp & Hd & Hc & Hlt) Hroom HI.
  destruct (usable_bucket t key Hu) as [c Hb].
  pose proof (lookup_lt_Some _ _ _ Hb) as Hslot.
  rewrite (Insert_node_usable t key value c Hu Hb) in HI. injection HI as <-.
  assert (Hother : forall c', (forall k, k <> key -> find_node c' k = find_node c k) ->
            forall count k, k <> key ->
            Get (mkHashTable (<[slot t key := c']> (buckets t)) (table_size t) count
                             (load_refactor t)) k = Get t k).
  { intros c' Hc' count k Hk. destruct (usable_bucket t k Hu) as [b Hbk].
    rewrite (Get_usable t k b Hu Hbk).
    rewrite (Get_usable _ k (if decide (slot t k = slot t key) then c' else b)).
    - destruct (decide (slot t k = slot t key)) as [Heq|Hne]; [|done].
      rewrite Heq in Hbk. simplify_eq. by rewrite Hc'.
    - destruct Hu as [Hlen Hsize]. split; simpl; [by rewrite length_insert|done].
    - unfold slot at 1. simpl. fold (slot t k).
      destruct (decide (slot t k = slot t key)) as [Heq|Hne].
      + rewrite Heq. by apply list_lookup_insert_eq.
      + by rewrite list_lookup_insert_ne. }
  assert (Hplaced : forall c' count, Forall (fun e => slot t e.1 = slot t key) c' ->
            placed (mkHashTable (<[slot t key := c']> (buckets t)) (table_size t) count
                                (load_refactor t))).
  { intros c' count Hc' i b Hi. simpl in Hi. unfold slot. simpl. fold (slot t).
    destruct (decide (i = slot t key)) as [->|Hne].
    - rewrite list_lookup_insert_eq in Hi by done. by injection Hi as <-.
    - rewrite list_lookup_insert_ne in Hi by done. by apply Hp. }
  assert (Husable : forall c' count,
            usable (mkHashTable (<[slot t key := c']> (buckets t)) (table_size t) count
                                (load_refactor t))).
  { intros c' count. destruct Hu as [Hlen Hsize].
    split; simpl; [by rewrite length_insert|done]. }
  destruct (assign_node c key value) as [c'|] eqn:Ha.
  - destruct (assign_node_Some c key value c' Ha) as (Hfind & Hkeys & Hrest).
    assert (Hsame : (concat (<[slot t key := c']> (buckets t))).*1 = (entries t).*1)
      by (by apply concat_insert_keys with c).
    split; [split; [apply Husable|split; [|split]]|].
    + apply Hplaced. apply Forall_fmap with (f := fst) (P := fun k => slot t k = slot t key).
      rewrite Hkeys. apply Forall_fmap. by apply Hp.
    + unfold distinct_keys, entries. simpl. by rewrite Hsame.
    + unfold counted, entries. simpl. split; [|done].
      rewrite Hc. f_equal.
      pose proof (f_equal length Hsame) as Hl. by rewrite !length_fmap in Hl.
    + split; [done|]. split.
      { apply elem_of_entries. exists (slot t key), c'. split.
        - simpl. by apply list_lookup_insert_eq.
        - by apply find_node_Some. }
      split; [by apply Hother|]. split; [by intros _|].
      intros Habsent. apply assign_node_None_inv in Ha; [done|].
      intros v Hv. apply (Habsent v), elem_of_entries. by exists (slot t key), c.
  - assert (Hfresh : key ∉ (entries t).*1).
    { intros Hin. destruct (key_of_entries t key Hp c Hb Hin) as [v Hv].
      apply assign_node_None in Ha. congruence. }
    assert (Hperm : concat (<[slot t key := (key, value) :: c]> (buckets t))
                    ≡ₚ (key, value) :: entries t) by (by apply concat_cons_at).
    assert (Hcount : to_size_t (element_count t + 1) = element_count t + 1).
    { apply to_size_t_small. lia. }
    split; [split; [apply Husable|split; [|split]]|].
    + apply Hplaced. constructor; [done|]. by apply Hp.
    + unfold distinct_keys, entries. simpl. rewrite Hperm, fmap_cons.
      by apply NoDup_cons.
    + unfold counted, entries. simpl. rewrite Hcount, Hperm. simpl. split; lia.
    + split; [done|]. split.
      { apply elem_of_entries. exists (slot t key), ((key, value) :: c). split.
        - simpl. by apply list_lookup_insert_eq.
        - apply list_elem_of_here. }
      split.
      { apply Hother. intros k Hk. simpl. by destruct (decide (key = k)); [congruence|]. }
      split; [|by intros _].
      intros [v Hv]. destruct Hfresh. apply list_elem_of_fmap. by exists (key, v).
Qed.

(** [Remove] keeps the invariants *)
Theorem Remove_preserves_invariant t key t' :
  invariant t -> Remove t key = Returns t' -> invariant t'.
Proof.
  intros (Hu & Hp & Hd & Hc & Hlt) HR.
  destruct (Remove_preserves t key t' Hu Hp HR) as [Hu' Hp'].
  destruct (usable_bucket t key Hu) as [c Hb].
  rewrite (Remove_usable t key c Hu Hb) in HR.
  destruct (unlink_node c key) as [c'|] eqn:Hun; [|done].
  injection HR as <-.
  destruct (unlink_node_Some c key c' Hun) as ([v Hperm] & _ & _).
  apply (concat_insert_perm (buckets t) (slot t key) c c' (key, v) Hb) in Hperm.
  fold (entries t) in Hperm.
  assert (Hlen : length (entries t)
                 = S (length (concat (<[slot t key := c']> (buckets t)))))
    by (by rewrite Hperm).
  split; [done|]. split; [done|]. split.
  - unfold distinct_keys in *. rewrite Hperm, fmap_cons in Hd.
    by apply NoDup_cons in Hd as [_ Hd].
  - unfold counted, entries. simpl. rewrite to_size_t_small by lia. split; lia.
Qed.

(** [Resize] on a table that satisfies the invariants returns, and the
    result has twice the capacity and a bucket array of that many chains;
    the count, the load factor and the entries are kept, with them the
    distinct keys and the count of the entries; every entry is in the
    chain of the slot that its key has under the old capacity *)
Theorem Resize_preserves t :
  invariant t ->
  exists t', Resize t = Returns t' /\
    table_size t' = 2 * table_size t /\
    length (buckets t') = Z.to_nat (table_size t') /\
    element_count t' = element_count t /\
    load_refactor t' = load_refactor t /\
    entries t' ≡ₚ entries t /\
    distinct_keys t' /\
    counted t' /\
    placed_for t (buckets t').
Proof.
  intros (Hu & Hp & Hd & Hc & Hlt).
  destruct (Resize_usable t Hu) as (t' & HR & Hsize & Hcount & Hload & Hlen & Hperm & Hold).
  exists t'. split; [done|]. split; [done|]. split; [done|]. split; [done|].
  split; [done|]. split; [done|]. split; [|split; [|done]].
  - unfold distinct_keys. by rewrite Hperm.
  - unfold counted. rewrite Hcount, Hperm. by split.
Qed.

(** [Insert] whose growth check does not fire is [Insert_node], and keeps
    the invariants *)
Theorem Insert_without_growth_preserves t key value t' :
  invariant t -> load_reached t = false -> element_count t + 1 < 2 ^ 64 ->
  Insert t key value = Returns t' ->
  invariant t' /\
  table_size t' = table_size t /\
  Get t' key = Returns value /\
  (forall k, k <> key -> Get t' k = Get t k) /\
  ((exists v, (key, v) ∈ entries t) ->
     element_count t' = element_count t /\ (entries t').*1 = (entries t).*1) /\
  ((forall v, (key, v) ∉ entries t) ->
     element_count t' = element_count t + 1 /\
     entries t' ≡ₚ (key, value) :: entries t).
Proof.
  intros Hinv Hload Hroom. unfold Insert. rewrite Hload. simpl. intros HI.
  destruct (Insert_node_preserves t key value t' Hinv Hroom HI)
    as (Hinv' & Hsize & _ & Hother & Hsome & Hnone).
  split; [done|]. split; [done|]. split; [by apply (Insert_node_Get t)|].
  by split.
Qed.

End Properties.

(** ** [CopyBuckets] on a chain of two nodes *)

Section StoreProperties.

Context {Key Value : Type}.

Implicit Types (s : list (option (@Store.Node Key Value))) (n : @Store.Node Key Value).

Lemma deref_live s (a : nat) n : s !! a = Some (Some n) -> Store.deref s a = Returns n.
Proof. intros Ha. unfold Store.deref. by rewrite Ha. Qed.

Lemma deref_released s (a : nat) :
  s !! a = Some None -> Store.deref s a = Undefined (A:=Store.Node) use_after_free.
Proof. intros Ha. unfold Store.deref. by rewrite Ha. Qed.

(** a released cell stays released *)
Lemma release_keeps_released (fuel : nat) s (p : option nat) (j : nat) :
  s !! j = Some None -> Store.release fuel s p !! j = Some None.
Proof.
  revert s p.
  induction fuel as [|fuel IH]; intros s [a|] Hj; cbn [Store.release]; try done.
  destruct (s !! a) as [[n|]|] eqn:Ha; try done.
  apply IH. destruct (decide (a = j)) as [->|Hne].
  - apply list_lookup_insert_eq. by eapply lookup_lt_Some.
  - by rewrite list_lookup_insert_ne.
Qed.

(** releasing a live node releases its cell *)
Lemma release_live (fuel : nat) s (a : nat) n :
  s !! a = Some (Some n) -> Store.release (S fuel) s (Some a) !! a = Some None.
Proof.
  intros Ha. cbn [Store.release]. rewrite Ha.
  apply release_keeps_released. apply list_lookup_insert_eq. by eapply lookup_lt_Some.
Qed.

(** a cell is a live node, released, or outside the store *)
Lemma deref_cases s (a : nat) :
  (exists n, Store.deref s a = Returns n) \/ Store.deref s a = Undefined use_after_free.
Proof. unfold Store.deref. destruct (s !! a) as [[n|]|]; eauto. Qed.

(** the loop of [CopyBuckets] on a source chain with a second node, and
    an empty bucket of the copy: in its second pass the assignment to
    [previous->next] releases the node that [current] points to, and the
    loop reads it *)
Theorem copy_chain_second_node (fuel : nat) (source copy : list (option nat)) (i : Z)
    s (a b : nat) na nb :
  s !! a = Some (Some na) ->
  Store.next na = Some b ->
  s !! b = Some (Some nb) ->
  a <> b ->
  source !! Store.index i = Some (Some a) ->
  copy !! Store.index i = Some None ->
  Store.copy_chain (S (S fuel)) source i (Store.mkCopying s copy (Some a) None)
    = Some (Undefined use_after_free).
Proof.
  intros Ha Hnext Hb Hab Hsource Hcopy.
  pose proof (lookup_lt_Some _ _ _ Ha) as Hla.
  pose proof (lookup_lt_Some _ _ _ Hb) as Hlb.
  (* the first pass *)
  cbn [Store.copy_chain Store.current].
  unfold Store.link_copy at 1. cbn [Store.nodes Store.previous Store.copy].
  rewrite (deref_live s a na Ha), bind_Returns.
  unfold Store.make_unique, Store.at_index. rewrite Hcopy, Hsource. simpl.
  set (s1 := s ++ [Some _]).
  assert (Ha1 : s1 !! a = Some (Some na)) by (unfold s1; by rewrite lookup_app_l).
  assert (Hb1 : s1 !! b = Some (Some nb)) by (unfold s1; by rewrite lookup_app_l).
  unfold Store.advance at 1. cbn [Store.nodes Store.previous Store.copy].
  assert (Hrel : Store.release (length s1) s1 None = s1) by (by destruct (length s1)).
  rewrite Hrel, (deref_live s1 a na Ha1), bind_Returns, Hnext.
  (* the second pass *)
  cbn [Store.copy_chain Store.current].
  unfold Store.link_copy. cbn [Store.nodes Store.previous Store.copy].
  rewrite (deref_live s1 b nb Hb1), bind_Returns. unfold Store.make_unique.
  set (s2 := s1 ++ [Some _]).
  assert (Ha2 : s2 !! a = Some (Some na)).
  { unfold s2. rewrite lookup_app_l; [done|]. by eapply lookup_lt_Some. }
  rewrite (deref_live s2 a na Ha2), bind_Returns. cbn [fst snd]. rewrite Hnext.
  set (s3 := <[a := _]> s2).
  assert (Hb3 : s3 !! b = Some (Some nb)).
  { unfold s3. rewrite list_lookup_insert_ne by done.
    unfold s2. rewrite lookup_app_l; [done|]. by eapply lookup_lt_Some. }
  assert (Hlen : exists m, length s3 = S m).
  { destruct (length s3) eqn:Hl; [|by eexists].
    apply lookup_lt_Some in Hb3. lia. }
  destruct Hlen as [m Hm]. rewrite Hm.
  pose proof (release_live m s3 b nb Hb3) as Hreleased.
  set (s4 := Store.release (S m) s3 (Some b)) in *.
  rewrite bind_Returns. cbn [fst snd].
  destruct (deref_cases s4 a) as [[n Hn]|Hn]; rewrite Hn; [|done].
  rewrite !bind_Returns.
  unfold Store.advance. cbn [Store.nodes].
  by rewrite (deref_released s4 b Hreleased).
Qed.

End StoreProperties.

(** ** Instances on tables of [int] keys *)

(** the table [HashTable<int, int> t(1, 0.75); t.Insert(1, 10);] *)
Lemma one_slot_table :
  exists t0, HashTable_new (Key:=Z) (Value:=Z) 1 float_0_75 = Returns t0 /\
    Insert t0 1 10 = Returns (mkHashTable [[(1, 10)]] 1 1 float_0_75).
Proof. eexists. split; [reflexivity|]. vm_compute. reflexivity. Qed.

Lemma one_slot_table_usable :
  usable (mkHashTable [[(1, 10)]] 1 1 float_0_75) /\
  placed (mkHashTable [[(1, 10)]] 1 1 float_0_75).
Proof.
  split; [split; [reflexivity | unfold INT_MAX; simpl; lia]|].
  intros [|i] c Hc; simplify_eq/=. by repeat constructor.
Qed.

(** the instance of C1 at [t(1, 0.75); t.Insert(1, 10)]: the growth that
    [t.Insert(2, 20)] starts with moves the entry of key 1 to bucket 0 of 2,
    and [Get(1)] looks in bucket 1. *)
Lemma Resize_files_under_old_capacity_witness :
  load_reached (mkHashTable [[(1, 10)]] 1 1 float_0_75) = true /\
  Resize (mkHashTable [[(1, 10)]] 1 1 float_0_75)
    = Returns (mkHashTable [[(1, 10)]; []] 2 1 float_0_75) /\
  Get (mkHashTable [[(1, 10)]] 1 1 float_0_75) 1 = Returns 10 /\
  Get (mkHashTable [[(1, 10)]; []] 2 1 float_0_75) 1 = Throws (out_of_range Get_what).
Proof.
  split; [vm_compute; reflexivity|]. split; [vm_compute; reflexivity|].
  split; [vm_compute; reflexivity|].
  destruct one_slot_table_usable as [Hu Hp].
  refine (proj2 (proj2 (proj2 (proj2
    (Resize_files_under_old_capacity
       (mkHashTable [[(1, 10)]] 1 1 float_0_75)
       (mkHashTable [[(1, 10)]; []] 2 1 float_0_75) 1 10 Hu Hp _ _ _ _))))).
  - unfold INT_MAX. simpl. lia.
  - vm_compute. reflexivity.
  - apply list_elem_of_here.
  - vm_compute. discriminate.
Defined.

(** C2: the states that [Insert] leads to do not keep the invariants.
    After [t(1, 0.75); t.Insert(1, 10); t.Insert(1, 20)] the table has two
    entries with key 1, its count is 2 for one distinct key, and the entry
    (1, 10) is in bucket 0 while key 1 has slot 1. *)
Theorem Insert_after_growth_repeats_key :
  exists t : @HashTable Z Z,
    reachable t /\
    buckets t = [[(1, 10)]; [(1, 20)]] /\
    table_size t = 2 /\
    element_count t = 2 /\
    length (remove_dups (entries t).*1) = 1%nat /\
    slot t 1 = 1%nat /\
    ~ distinct_keys t /\
    ~ placed t.
Proof.
  exists (mkHashTable [[(1, 10)]; [(1, 20)]] 2 2 float_0_75).
  split.
  { destruct one_slot_table as (t0 & Hnew & Hins).
    eapply reachable_Insert with (key := 1) (value := 20);
      [eapply reachable_Insert; [eapply reachable_new, Hnew | exact Hins]|].
    vm_compute. reflexivity. }
  split; [reflexivity|]. split; [reflexivity|]. split; [reflexivity|].
  split; [vm_compute; reflexivity|]. split; [vm_compute; reflexivity|]. split.
  - intros Hd. unfold distinct_keys in Hd. simpl in Hd.
    apply NoDup_cons in Hd as [Hnot _]. apply Hnot, list_elem_of_here.
  - intros Hp. specialize (Hp 0%nat [(1, 10)] eq_refl).
    apply Forall_cons in Hp as [Hslot _]. vm_compute in Hslot. discriminate.
Qed.

(** C7: an [Insert] that grows the table first neither overwrites in place
    nor leaves other keys alone.  On [t(1, 0.75); t.Insert(1, 10)], the
    call [t.Insert(1, 20)] adds a second entry for key 1 and raises the
    count from 1 to 2, and the call [t.Insert(2, 20)] makes [Get(1)], which
    returned 10, throw. *)
Theorem Insert_with_growth_adds_second_entry :
  exists t1 : @HashTable Z Z,
    reachable t1 /\
    Get t1 1 = Returns 10 /\
    element_count t1 = 1 /\
    Insert t1 1 20 = Returns (mkHashTable [[(1, 10)]; [(1, 20)]] 2 2 float_0_75) /\
    Insert t1 2 20 = Returns (mkHashTable [[(2, 20); (1, 10)]; []] 2 2 float_0_75) /\
    Get (mkHashTable [[(2, 20); (1, 10)]; []] 2 2 float_0_75) 1
      = Throws (out_of_range Get_what) /\
    Get (mkHashTable [[(2, 20); (1, 10)]; []] 2 2 float_0_75) 2 = Returns 20.
Proof.
  exists (mkHashTable [[(1, 10)]] 1 1 float_0_75). split.
  { destruct one_slot_table as (t0 & Hnew & Hins).
    eapply reachable_Insert; [eapply reachable_new, Hnew | exact Hins]. }
  repeat split; vm_compute; reflexivity.
Qed.

(** the instance of C3 at the keys 1, 2 and 3 *)
Lemma Insert_growth_check_witness :
  exists t0 t1 t2 t3 : @HashTable Z Z,
    HashTable_new 2 float_0_75 = Returns t0 /\
    Insert t0 1 10 = Returns t1 /\
    Insert t1 2 20 = Returns t2 /\
    Insert t2 3 30 = Returns t3 /\
    load_reached t0 = false /\ table_size t1 = 2 /\ element_count t1 = 1 /\
    load_reached t1 = false /\ table_size t2 = 2 /\ element_count t2 = 2 /\
    load_reached t2 = true /\ table_size t3 = 4 /\ element_count t3 = 3.
Proof.
  apply (proj2 Insert_growth_check 1 10 2 20 3 30); discriminate.
Defined.

(** C3 as stated fails on [t(2, 0.75); t.Insert(1, 10); t.Insert(2, 20)]:
    before the second call [count + 1 = 2] exceeds [2 * 0.75], yet the call
    stores key 2 without growing the table, and leaves count 2 above
    [2 * 0.75] at capacity 2. *)
Lemma Insert_second_key_without_growth :
  exists t0 t1 t2 : @HashTable Z Z,
    HashTable_new 2 float_0_75 = Returns t0 /\
    Insert t0 1 10 = Returns t1 /\
    Insert t1 2 20 = Returns t2 /\
    SFcompare (float_of_Z (element_count t1 + 1))
              (float_mul (float_of_Z (table_size t1)) (load_refactor t1)) = Some Gt /\
    table_size t2 = 2 /\
    element_count t2 = 2 /\
    Get t2 2 = Returns 20 /\
    SFcompare (float_of_Z (element_count t2))
              (float_mul (float_of_Z (table_size t2)) (load_refactor t2)) = Some Gt.
Proof.
  eexists _, _, _. split; [reflexivity|].
  split; [vm_compute; reflexivity|]. split; [vm_compute; reflexivity|].
  repeat split; vm_compute; reflexivity.
Qed.

(** the instance of C5 at [t(2, 0.75); t.Insert(1, 10); t.Clear()] *)
Lemma Clear_leaves_no_bucket_witness :
  exists t0 t1 : @HashTable Z Z,
    HashTable_new 2 float_0_75 = Returns t0 /\
    Insert t0 1 10 = Returns t1 /\
    ContainsKey t1 1 = Returns true /\
    table_size (Clear t1) = 2 /\
    buckets (Clear t1) = [] /\
    ContainsKey (Clear t1) 1 = Undefined out_of_bounds /\
    Insert (Clear t1) 1 10 = Undefined out_of_bounds.
Proof.
  eexists _, (mkHashTable [[]; [(1, 10)]] 2 1 float_0_75).
  split; [reflexivity|]. split; [vm_compute; reflexivity|].
  split; [vm_compute; reflexivity|]. split; [reflexivity|]. split; [reflexivity|].
  pose proof (Clear_leaves_no_bucket
                (mkHashTable [[]; [(1, 10)]] 2 1 float_0_75) 1 10) as H.
  destruct H as (_ & _ & _ & _ & HC & _ & _ & HI); [discriminate|].
  split; [exact HC|]. apply HI. vm_compute. reflexivity.
Defined.

(** C6 as stated fails: after [HashTable<int, int> b(std::move(a))] the
    source [a] has capacity 0, and [a.Get(1)] takes a modulus by zero. *)
Lemma move_source_modulo_by_zero :
  exists t0 t1 moved source : @HashTable Z Z,
    HashTable_new 16 float_0_75 = Returns t0 /\
    Insert t0 1 10 = Returns t1 /\
    HashTable_move t1 = (moved, source) /\
    Get moved 1 = Returns 10 /\
    table_size source = 0 /\
    Get source 1 = Undefined modulo_by_zero /\
    Insert source 1 10 = Undefined modulo_by_zero.
Proof.
  eexists _, _, _, _. split; [reflexivity|].
  split; [vm_compute; reflexivity|]. split; [reflexivity|].
  repeat split; vm_compute; reflexivity.
Qed.

(** the instance of C8 at a table of two buckets with the keys 2 and 1 *)
Lemma Get_Remove_key_not_found_witness :
  usable (mkHashTable [[(2, 20)]; [(1, 10)]] 2 2 float_0_75) /\
  placed (mkHashTable [[(2, 20)]; [(1, 10)]] 2 2 float_0_75) /\
  Get (mkHashTable [[(2, 20)]; [(1, 10)]] 2 2 float_0_75) 1 = Returns 10 /\
  Get (mkHashTable [[(2, 20)]; [(1, 10)]] 2 2 float_0_75) 3
    = Throws (out_of_range Get_what) /\
  Remove (mkHashTable [[(2, 20)]; [(1, 10)]] 2 2 float_0_75) 3
    = Throws (out_of_range Remove_what) /\
  exists t' v,
    Remove (mkHashTable [[(2, 20)]; [(1, 10)]] 2 2 float_0_75) 1 = Returns t' /\
    entries (mkHashTable [[(2, 20)]; [(1, 10)]] 2 2 float_0_75) ≡ₚ (1, v) :: entries t' /\
    element_count t' = 1 /\
    Get t' 2 = Returns 20.
Proof.
  set (t := mkHashTable [[(2, 20)]; [(1, 10)]] 2 2 float_0_75).
  assert (Hu : usable t).
  { split; [reflexivity | unfold INT_MAX; simpl; lia]. }
  assert (Hp : placed t).
  { intros [|[|i]] c Hc; simplify_eq/=; by repeat constructor. }
  assert (Hd : distinct_keys t).
  { unfold distinct_keys. simpl. apply NoDup_cons. split.
    - intros [=]%list_elem_of_singleton.
    - apply NoDup_singleton. }
  assert (Hin : (1, 10) ∈ entries t).
  { apply list_elem_of_further, list_elem_of_here. }
  assert (Hout : forall v, (3, v) ∉ entries t).
  { intros v. unfold entries. simpl. rewrite !elem_of_cons.
    intros [[=]|[[=]|[]%elem_of_nil]]. }
  destruct (Get_Remove_key_not_found t 1 Hu Hp) as (_ & _ & HG & _ & _ & _ & HR).
  destruct (Get_Remove_key_not_found t 3 Hu Hp) as (_ & _ & _ & HT & HRT & _).
  split; [exact Hu|]. split; [exact Hp|]. split; [by apply HG|].
  split; [by apply HT|]. split; [by apply HRT|].
  destruct HR as (t' & v & HR & Hperm & _ & Hcount & _ & _ & _ & _ & Hother).
  { by exists 10. }
  exists t', v. split; [exact HR|]. split; [exact Hperm|].
  split; [apply Hcount; simpl; lia|].
  rewrite Hother by discriminate. vm_compute. reflexivity.
Defined.

(** C8 as stated fails on a table of 2^32 buckets, which is usable in the
    sense of capacity >= 1: the slot 2^32 - 1 of the key -1 becomes the
    [int] -1, and [Get] and [Remove] index the bucket array out of bounds
    where no entry exists and [std::out_of_range] is claimed. *)
Lemma Get_index_does_not_fit_int :
  exists t : @HashTable Z Z,
    HashTable_new 4294967296 float_0_75 = Returns t /\
    1 <= table_size t /\
    entries t = [] /\
    HashFunction t (-1) = Returns (-1) /\
    Get t (-1) = Undefined out_of_bounds /\
    Remove t (-1) = Undefined out_of_bounds.
Proof.
  eexists. split; [reflexivity|].
  set (t := mkHashTable _ _ _ _).
  split; [change (table_size t) with 4294967296; lia|].
  split; [apply entries_replicate_nil|].
  split; [reflexivity|].
  destruct (keyed_operations_overflow t (-1)) as (HG & _ & HR).
  - change (std_hash (-1) mod table_size t) with 4294967295. unfold INT_MAX. lia.
  - apply length_replicate.
  - change (table_size t) with 4294967296. lia.
  - by split.
Qed.

(** C9 as stated fails: construction with capacity 0, and with a load
    factor of 0, returns a table and throws nothing. *)
Lemma HashTable_new_accepts_zero :
  HashTable_new (Key:=Z) (Value:=Z) 0 float_0_75
    = Returns (mkHashTable [] 0 0 float_0_75) /\
  HashTable_new (Key:=Z) (Value:=Z) 16 float_0
    = Returns (mkHashTable (replicate 16 []) 16 0 float_0).
Proof. split; reflexivity. Qed.

(** the instances of C9 at the default arguments, 16 and 0.75, and at
    2^60 buckets *)
Lemma HashTable_new_accepts_all_witness :
  (exists t : @HashTable Z Z,
     HashTable_new 16 float_0_75 = Returns t /\
     table_size t = 16 /\
     load_refactor t = float_0_75 /\
     element_count t = 0 /\
     length (buckets t) = Z.to_nat 16 /\
     entries t = []) /\
  HashTable_new (Key:=Z) (Value:=Z) (2 ^ 60) float_0_75 = Throws length_error.
Proof.
  split.
  - apply (HashTable_new_accepts_all 16 float_0_75); [lia|].
    unfold max_size. lia.
  - apply (HashTable_new_accepts_all (2 ^ 60) float_0_75); [lia|].
    unfold max_size. lia.
Defined.

(** the instance of C10 at the default arguments, 16 and 0.75 *)
Lemma HashTable_new_is_empty_witness :
  1 <= 16 <= INT_MAX + 1 /\
  exists t : @HashTable Z Z,
    HashTable_new 16 float_0_75 = Returns t /\
    Size t = 0 /\
    IsEmpty t = true /\
    ContainsKey t 7 = Returns false /\
    Get t 7 = Throws (out_of_range Get_what).
Proof.
  assert (Hsize : 1 <= 16 <= INT_MAX + 1) by (unfold INT_MAX; lia).
  split; [exact Hsize|].
  exact (HashTable_new_is_empty 16 float_0_75 7 Hsize).
Defined.

(** C10 as stated fails at capacity 2^32: on the new table
    [ContainsKey(-1)] and [Get(-1)] index the bucket array out of bounds. *)
Lemma ContainsKey_index_does_not_fit_int :
  exists t : @HashTable Z Z,
    HashTable_new 4294967296 float_0_75 = Returns t /\
    Size t = 0 /\
    IsEmpty t = true /\
    ContainsKey t (-1) = Undefined out_of_bounds /\
    Get t (-1) = Undefined out_of_bounds.
Proof.
  eexists. split; [reflexivity|].
  set (t := mkHashTable _ _ _ _).
  split; [reflexivity|]. split; [reflexivity|].
  destruct (keyed_operations_overflow t (-1)) as (HG & HC & _).
  - change (std_hash (-1) mod table_size t) with 4294967295. unfold INT_MAX. lia.
  - apply length_replicate.
  - change (table_size t) with 4294967296. lia.
  - by split.
Qed.

(** ** Copies *)

(** C4: the copy constructor copies a table whose chains have one node
    ([t(4, 0.75); t.Insert(1, 10)]: the copy has the same contents and the
    source is unchanged), but on a chain of two nodes ([t.Insert(5, 50)]
    added, keys 5 and 1 in bucket 1) [CopyBuckets] reads a released node
    in its second pass, and copy assignment to a newly constructed table
    writes to the bucket array that [Clear] has emptied. *)
Theorem CopyBuckets_reads_released_node :
  exists (t0 a1 a : @HashTable Z Z) s1 ta1 s ta s2 tb,
    HashTable_new 4 float_0_75 = Returns t0 /\
    Insert t0 1 10 = Returns a1 /\
    Insert a1 5 50 = Returns a /\
    buckets a1 = [[]; [(1, 10)]; []; []] /\
    buckets a = [[]; [(5, 50); (1, 10)]; []; []] /\
    (* one node in the chain *)
    Store.store_table [] a1 = (s1, ta1) /\
    Store.load_table s1 ta1 = Some a1 /\
    (exists s' tc,
       Store.HashTable_copy 1 s1 ta1 = Some (Returns (s', tc)) /\
       Store.load_table s' tc = Some a1 /\
       Store.load_table s' ta1 = Some a1) /\
    (* two nodes in the chain *)
    Store.store_table [] a = (s, ta) /\
    Store.load_table s ta = Some a /\
    Store.HashTable_copy 2 s ta = Some (Undefined use_after_free) /\
    (forall fuel,
       Store.HashTable_copy fuel s ta = None \/
       Store.HashTable_copy fuel s ta = Some (Undefined use_after_free)) /\
    (* copy assignment [b = a1] to [HashTable<int, int> b(4, 0.75)] *)
    Store.store_table s1 t0 = (s2, tb) /\
    Store.copy_assign 1 s2 tb ta1 = Some (Undefined out_of_bounds) /\
    (forall fuel,
       Store.copy_assign fuel s2 tb ta1 = None \/
       Store.copy_assign fuel s2 tb ta1 = Some (Undefined out_of_bounds)).
Proof.
  eexists _, (mkHashTable [[]; [(1, 10)]; []; []] 4 1 float_0_75),
    (mkHashTable [[]; [(5, 50); (1, 10)]; []; []] 4 2 float_0_75), _, _, _, _, _, _.
  split; [reflexivity|]. split; [vm_compute; reflexivity|].
  split; [vm_compute; reflexivity|]. split; [reflexivity|]. split; [reflexivity|].
  split; [vm_compute; reflexivity|]. split; [vm_compute; reflexivity|].
  split; [eexists _, _; repeat split; vm_compute; reflexivity|].
  split; [vm_compute; reflexivity|]. split; [vm_compute; reflexivity|].
  split; [vm_compute; reflexivity|].
  split; [intros [|[|fuel]]; vm_compute; auto|].
  split; [vm_compute; reflexivity|]. split; [vm_compute; reflexivity|].
  intros [|fuel]; vm_compute; auto.
Qed.

(** ** Instances of the preservation theorems *)

Lemma two_slot_table_invariant :
  invariant (mkHashTable [[(2, 20)]; [(1, 10)]] 2 2 float_0_75).
Proof.
  split; [split; [reflexivity | unfold INT_MAX; simpl; lia]|]. split; [|split].
  - intros [|[|i]] c Hc; simplify_eq/=; by repeat constructor.
  - unfold distinct_keys. simpl. apply NoDup_cons. split.
    + intros [=]%list_elem_of_singleton.
    + apply NoDup_singleton.
  - split; [reflexivity | simpl; lia].
Qed.

(** [t(4, 0.75); t.Insert(1, 10); t.Insert(5, 50)]: the second call does
    not grow the table, and the new entry goes to bucket 1, before key 1 *)
Lemma Insert_without_growth_preserves_witness :
  invariant (mkHashTable [[]; [(1, 10)]; []; []] 4 1 float_0_75) /\
  load_reached (mkHashTable [[]; [(1, 10)]; []; []] 4 1 float_0_75) = false /\
  Insert (mkHashTable [[]; [(1, 10)]; []; []] 4 1 float_0_75) 5 50
    = Returns (mkHashTable [[]; [(5, 50); (1, 10)]; []; []] 4 2 float_0_75) /\
  invariant (mkHashTable [[]; [(5, 50); (1, 10)]; []; []] 4 2 float_0_75) /\
  Get (mkHashTable [[]; [(5, 50); (1, 10)]; []; []] 4 2 float_0_75) 1 = Returns 10.
Proof.
  assert (Hinv : invariant (mkHashTable [[]; [(1, 10)]; []; []] 4 1 float_0_75)).
  { split; [split; [reflexivity | unfold INT_MAX; simpl; lia]|]. split; [|split].
    - intros [|[|[|[|i]]]] c Hc; simplify_eq/=; by repeat constructor.
    - unfold distinct_keys. simpl. apply NoDup_singleton.
    - split; [reflexivity | simpl; lia]. }
  assert (HI : Insert (mkHashTable [[]; [(1, 10)]; []; []] 4 1 float_0_75) 5 50
               = Returns (mkHashTable [[]; [(5, 50); (1, 10)]; []; []] 4 2 float_0_75))
    by (vm_compute; reflexivity).
  assert (Hload : load_reached (mkHashTable [[]; [(1, 10)]; []; []] 4 1 float_0_75)
                  = false)
    by (vm_compute; reflexivity).
  assert (Hroom : element_count (mkHashTable [[]; [(1, 10)]; []; []] 4 1 float_0_75) + 1
                  < 2 ^ 64)
    by (simpl; lia).
  destruct (Insert_without_growth_preserves _ 5 50 _ Hinv Hload Hroom HI)
    as (Hinv' & _ & _ & Hother & _).
  split; [exact Hinv|]. split; [exact Hload|]. split; [exact HI|].
  split; [exact Hinv'|].
  rewrite Hother by discriminate. vm_compute. reflexivity.
Defined.

Lemma Remove_preserves_invariant_witness :
  invariant (mkHashTable [[(2, 20)]; [(1, 10)]] 2 2 float_0_75) /\
  Remove (mkHashTable [[(2, 20)]; [(1, 10)]] 2 2 float_0_75) 1
    = Returns (mkHashTable [[(2, 20)]; []] 2 1 float_0_75) /\
  invariant (mkHashTable [[(2, 20)]; []] 2 1 float_0_75).
Proof.
  assert (HR : Remove (mkHashTable [[(2, 20)]; [(1, 10)]] 2 2 float_0_75) 1
               = Returns (mkHashTable [[(2, 20)]; []] 2 1 float_0_75))
    by (vm_compute; reflexivity).
  split; [exact two_slot_table_invariant|]. split; [exact HR|].
  exact (Remove_preserves_invariant _ 1 _ two_slot_table_invariant HR).
Defined.

Lemma Resize_preserves_witness :
  invariant (mkHashTable [[(2, 20)]; [(1, 10)]] 2 2 float_0_75) /\
  Resize (mkHashTable [[(2, 20)]; [(1, 10)]] 2 2 float_0_75)
    = Returns (mkHashTable [[(2, 20)]; [(1, 10)]; []; []] 4 2 float_0_75) /\
  table_size (mkHashTable [[(2, 20)]; [(1, 10)]; []; []] 4 2 float_0_75)
    = 2 * table_size (mkHashTable [[(2, 20)]; [(1, 10)]] 2 2 float_0_75) /\
  distinct_keys (mkHashTable [[(2, 20)]; [(1, 10)]; []; []] 4 2 float_0_75) /\
  counted (mkHashTable [[(2, 20)]; [(1, 10)]; []; []] 4 2 float_0_75) /\
  slot (mkHashTable [[(2, 20)]; [(1, 10)]; []; []] 4 2 float_0_75) 2 = 2%nat.
Proof.
  assert (HR : Resize (mkHashTable [[(2, 20)]; [(1, 10)]] 2 2 float_0_75)
               = Returns (mkHashTable [[(2, 20)]; [(1, 10)]; []; []] 4 2 float_0_75))
    by (vm_compute; reflexivity).
  destruct (Resize_preserves _ two_slot_table_invariant)
    as (t' & HR' & Hs & _ & _ & _ & _ & Hd & Hc & _).
  rewrite HR in HR'. injection HR' as <-.
  split; [exact two_slot_table_invariant|]. split; [exact HR|].
  split; [exact Hs|]. split; [exact Hd|]. split; [exact Hc|]. vm_compute. reflexivity.
Defined.

Lemma Insert_returns_witness :
  usable (mkHashTable [[(2, 20)]; [(1, 10)]] 2 2 float_0_75) /\
  returned (Insert (mkHashTable [[(2, 20)]; [(1, 10)]] 2 2 float_0_75) 3 30).
Proof.
  destruct two_slot_table_invariant as (Hu & _).
  split; [exact Hu|]. apply Insert_returns; [exact Hu|].
  unfold INT_MAX. simpl. lia.
Defined.

(** the chain of the keys 5 and 1 at the addresses 1 and 0 *)
Lemma copy_chain_second_node_witness :
  Store.copy_chain 2 [None; Some 1%nat; None; None] 1
    (Store.mkCopying [Some (Store.mkNode 1 10 None); Some (Store.mkNode 5 50 (Some 0%nat))]
                     [None; None; None; None] (Some 1%nat) None)
  = Some (Undefined use_after_free).
Proof.
  apply (copy_chain_second_node 0 _ _ 1 _ 1%nat 0%nat
           (Store.mkNode 5 50 (Some 0%nat)) (Store.mkNode 1 10 None));
    (reflexivity || discriminate).
Defined.

(** * How the operations compose *)

Section Laws.

Context {Key Value : Type} `{EqDecision Key} `{Hash Key}.

Implicit Types (t : @HashTable Key Value) (c : @chain Key Value).
Implicit Types (key k : Key) (value v : Value).

(** [ContainsKey] and [Get] walk the same chain: [ContainsKey] is true
    exactly when [Get] returns, false exactly when [Get] throws, and
    undefined exactly when [Get] is *)
Theorem ContainsKey_agrees_with_Get t key :
  (ContainsKey t key = Returns true <-> exists v, Get t key = Returns v) /\
  (ContainsKey t key = Returns false <-> Get t key = Throws (out_of_range Get_what)) /\
  (forall u, ContainsKey t key = Undefined u <-> Get t key = Undefined u).
Proof.
  unfold ContainsKey, Get, HashFunction, at_index.
  destruct (decide (table_size t = 0)) as [Hz|Hnz]; simpl;
    [|destruct (buckets t !! index _) as [b|]; simpl;
      [destruct (find_node b key) as [v|]; simpl|]];
    (split; [|split]; [split; [intros ?|intros [? ?]] | split; intros ?
                      | intros ?; split; intros ?]);
    simplify_eq; eauto.
Qed.

(** the keys of one chain are distinct when the keys of the table are *)
Lemma distinct_keys_chain t (i : nat) c :
  distinct_keys t -> buckets t !! i = Some c -> NoDup c.*1.
Proof.
  unfold distinct_keys, entries. intros Hd Hc.
  rewrite <- (take_drop_middle _ _ _ Hc), concat_app, fmap_app in Hd.
  apply NoDup_app in Hd as (_ & _ & Hd). simpl in Hd.
  rewrite fmap_app in Hd. by apply NoDup_app in Hd as (Hd & _).
Qed.

Lemma find_node_NoDup c key v :
  NoDup c.*1 -> (key, v) ∈ c -> find_node c key = Some v.
Proof.
  intros Hd Hin. destruct (find_node c key) as [w|] eqn:Hf.
  - f_equal. apply find_node_Some in Hf. by apply (NoDup_keys_value c key).
  - by destruct (proj1 (find_node_None c key) Hf v).
Qed.

(** with distinct keys, [unlink_node] leaves no node with the key *)
Lemma unlink_node_gone c key c' :
  NoDup c.*1 -> unlink_node c key = Some c' -> find_node c' key = None.
Proof.
  intros Hd Hun. destruct (unlink_node_Some c key c' Hun) as ([v Hperm] & _ & _).
  rewrite Hperm, fmap_cons in Hd. apply NoDup_cons in Hd as [Hnot _].
  apply find_node_None. intros w Hw. apply Hnot, list_elem_of_fmap. by exists (key, w).
Qed.

(** after a [Remove] that returns, on a usable table with its entries in
    their chains and distinct keys, the key is gone: [Get] throws,
    [ContainsKey] is false, and a second [Remove] throws *)
Theorem Remove_then_Get_throws t key t' :
  usable t -> placed t -> distinct_keys t ->
  Remove t key = Returns t' ->
  Get t' key = Throws (out_of_range Get_what) /\
  ContainsKey t' key = Returns false /\
  Remove t' key = Throws (out_of_range Remove_what) /\
  (forall v, (key, v) ∉ entries t').
Proof.
  intros Hu Hp Hd HR.
  destruct (Remove_preserves t key t' Hu Hp HR) as [Hu' Hp'].
  destruct (usable_bucket t key Hu) as [c Hc].
  rewrite (Remove_usable t key c Hu Hc) in HR.
  destruct (unlink_node c key) as [c'|] eqn:Hun; [|done].
  injection HR as <-.
  pose proof (unlink_node_gone c key c' (distinct_keys_chain t _ c Hd Hc) Hun) as Hgone.
  set (t' := mkHashTable _ _ _ _) in *.
  assert (Hc' : buckets t' !! slot t' key = Some c').
  { apply list_lookup_insert_eq. by eapply lookup_lt_Some. }
  rewrite (Get_usable t' key c' Hu' Hc'), (ContainsKey_usable t' key c' Hu' Hc'),
    (Remove_usable t' key c' Hu' Hc'), Hgone.
  rewrite (proj2 (unlink_node_None c' key) Hgone).
  split; [done|]. split; [done|]. split; [done|].
  intros v Hv. apply (placed_entries t' key v c' Hp' Hc') in Hv.
  by apply (proj1 (find_node_None c' key) Hgone v).
Qed.

(** [Insert] of a key that the table does not have, without growth, and
    then [Remove] of the key give the table back as it was *)
Theorem Insert_then_Remove_restores t key value t1 :
  usable t -> (forall v, (key, v) ∉ entries t) ->
  load_reached t = false ->
  0 <= element_count t -> element_count t + 1 < 2 ^ 64 ->
  Insert t key value = Returns t1 ->
  Remove t1 key = Returns t.
Proof.
  intros Hu Habsent Hload Hpos Hroom. unfold Insert. rewrite Hload. simpl.
  destruct (usable_bucket t key Hu) as [c Hc].
  rewrite (Insert_node_usable t key value c Hu Hc).
  assert (Hnone : assign_node c key value = None).
  { apply assign_node_None, find_node_None. intros v Hv.
    apply (Habsent v), elem_of_entries. by exists (slot t key), c. }
  rewrite Hnone. intros [= <-].
  set (t1 := mkHashTable _ _ _ _).
  assert (Hu1 : usable t1).
  { destruct Hu as [Hlen Hsize]. split; simpl; [by rewrite length_insert|done]. }
  assert (Hc1 : buckets t1 !! slot t1 key = Some ((key, value) :: c)).
  { apply list_lookup_insert_eq. by eapply lookup_lt_Some. }
  rewrite (Remove_usable t1 key _ Hu1 Hc1). simpl.
  destruct (decide (key = key)); [|done]. f_equal.
  unfold slot. simpl. fold (slot t key).
  rewrite list_insert_insert_eq, list_insert_id by done.
  rewrite (to_size_t_small (element_count t + 1)) by lia.
  replace (element_count t + 1 - 1) with (element_count t) by lia.
  rewrite to_size_t_small by lia. by destruct t.
Qed.

(** a second [Insert] of a key, without growth, overwrites: whatever the
    table, once [Insert(key, v1)] has returned, [Insert(key, v2)] returns,
    keeps the count, the capacity and the keys of every chain, makes [Get]
    return [v2], and leaves the lookups of the other keys as they were *)
Theorem Insert_again_overwrites t key v1 t1 v2 :
  Insert t key v1 = Returns t1 -> load_reached t1 = false ->
  exists t2, Insert t1 key v2 = Returns t2 /\
    element_count t2 = element_count t1 /\
    table_size t2 = table_size t1 /\
    (entries t2).*1 = (entries t1).*1 /\
    Get t2 key = Returns v2 /\
    (forall k, k <> key -> Get t2 k = Get t1 k).
Proof.
  intros HI Hload.
  assert (HG : Get t1 key = Returns v1).
  { unfold Insert in HI.
    destruct (if load_reached t then Resize t else Returns t) as [t0| |];
      [simpl in HI|done..].
    by apply (Insert_node_Get t0). }
  unfold Get in HG.
  destruct (HashFunction t1 key) as [h| |] eqn:Hh; [simpl in HG|done..].
  destruct (at_index (buckets t1) h) as [b| |] eqn:Hb; [simpl in HG|done..].
  destruct (find_node b key) as [w|] eqn:Hf; [|done].
  destruct (assign_node b key v2) as [b'|] eqn:Ha.
  2:{ apply assign_node_None in Ha. congruence. }
  destruct (assign_node_Some b key v2 b' Ha) as (_ & Hkeys & Hother).
  assert (HI2 : Insert_node t1 key v2
                = Returns (mkHashTable (<[index h := b']> (buckets t1)) (table_size t1)
                                       (element_count t1) (load_refactor t1))).
  { unfold Insert_node. rewrite Hh. simpl. rewrite Hb. simpl. by rewrite Ha. }
  apply at_index_Returns in Hb. pose proof (lookup_lt_Some _ _ _ Hb) as Hlt.
  eexists. split; [unfold Insert; rewrite Hload; exact HI2|].
  split; [done|]. split; [done|]. split; [by apply concat_insert_keys with b|].
  split; [by apply (Insert_node_Get t1 key v2)|].
  intros k Hk. unfold Get.
  change (HashFunction (mkHashTable _ _ _ _) k) with (HashFunction t1 k).
  destruct (HashFunction t1 k) as [hk| |]; [simpl|done..].
  unfold at_index. simpl. destruct (decide (index h = index hk)) as [Heq|Hne].
  - rewrite <- Heq, list_lookup_insert_eq, Hb by done. simpl. by rewrite Hother.
  - by rewrite list_lookup_insert_ne.
Qed.

(** a call of the public [Resize] after [Clear] makes the table usable
    again: an empty table of twice the capacity *)
Theorem Resize_after_Clear t key :
  1 <= table_size t -> 2 * table_size t <= INT_MAX + 1 ->
  exists t', Resize (Clear t) = Returns t' /\
    usable t' /\
    table_size t' = 2 * table_size t /\
    element_count t' = 0 /\
    load_refactor t' = load_refactor t /\
    entries t' = [] /\
    ContainsKey t' key = Returns false /\
    Get t' key = Throws (out_of_range Get_what).
Proof.
  intros Hsize Hfits. unfold Resize, Clear. simpl.
  assert (Hnew : to_size_t (table_size t * 2) = 2 * table_size t).
  { unfold INT_MAX in Hfits. rewrite to_size_t_small; lia. }
  rewrite Hnew. eexists. split; [reflexivity|].
  set (t' := mkHashTable _ _ _ _).
  destruct (HashTable_new_valid (2 * table_size t) (load_refactor t) t')
    as (Hu & _); [lia|apply HashTable_new_returns; unfold max_size, INT_MAX in *; lia|].
  assert (Hc : buckets t' !! slot t' key = Some []).
  { apply lookup_replicate_2. apply (slot_lt t' key). simpl. lia. }
  split; [done|]. split; [done|]. split; [done|]. split; [done|].
  split; [apply entries_replicate_nil|].
  by rewrite (ContainsKey_usable t' key [] Hu Hc), (Get_usable t' key [] Hu Hc).
Qed.

(** [Resize] keeps the lookup of every key whose slot is the same under
    the doubled capacity *)
Theorem Resize_keeps_unmoved_keys t t' key :
  invariant t -> 2 * table_size t <= INT_MAX + 1 ->
  Resize t = Returns t' ->
  slot t' key = slot t key ->
  Get t' key = Get t key.
Proof.
  intros (Hu & Hp & Hd & _) Hfits HR Hslot.
  destruct (Resize_usable t Hu) as (t'' & HR' & Hsize & _ & _ & Hlen & Hperm & Hold).
  rewrite HR in HR'. injection HR' as <-.
  assert (Hu' : usable t').
  { split; [done|]. destruct Hu as [_ Hs]. lia. }
  assert (Hd' : distinct_keys t') by (unfold distinct_keys; by rewrite Hperm).
  destruct (usable_bucket t key Hu) as [c Hb].
  destruct (usable_bucket t' key Hu') as [c' Hb'].
  rewrite (Get_usable t key c Hu Hb), (Get_usable t' key c' Hu' Hb').
  assert (Hin' : forall v, (key, v) ∈ entries t -> (key, v) ∈ c').
  { intros v Hv. rewrite <- Hperm in Hv.
    apply elem_of_entries in Hv as (j & b & Hj & Hv).
    pose proof (proj1 (Forall_forall _ _) (Hold j b Hj) _ Hv) as Hjs. simpl in Hjs.
    rewrite <- Hjs, <- Hslot, Hb' in Hj. by injection Hj as ->. }
  destruct (classic_entry t key) as [[v Hv]|Habsent].
  - rewrite (find_node_NoDup c' key v), (find_node_NoDup c key v); try done.
    + by apply (distinct_keys_chain t (slot t key)).
    + by apply (placed_entries t key v c).
    + by apply (distinct_keys_chain t' (slot t' key)).
    + by apply Hin'.
  - assert (Hn : find_node c key = None).
    { apply find_node_None. intros v Hv. apply (Habsent v), elem_of_entries.
      by exists (slot t key), c. }
    assert (Hn' : find_node c' key = None).
    { apply find_node_None. intros v Hv. apply (Habsent v). rewrite <- Hperm.
      apply elem_of_entries. by exists (slot t' key), c'. }
    by rewrite Hn, Hn'.
Qed.

End Laws.

(** * [Show] *)

Lemma string_app_assoc (a b c : string) : ((a ++ b) ++ c = a ++ (b ++ c))%string.
Proof. induction a as [|x a IH]; simpl; [done|]. by rewrite IH. Qed.

Section ShowProperties.

Context {Key Value : Type} `{Print Key} `{Print Value}.

Implicit Types (t : @HashTable Key Value) (c : @chain Key Value).

(** the lines of the buckets from index [i] on *)
Lemma Show_from_lines (rest pre : list (@chain Key Value)) (out : string) :
  Z.of_nat (length pre) + Z.of_nat (length rest) <= INT_MAX ->
  Show_from (length rest) (Z.of_nat (length pre)) (pre ++ rest) out
  = Returns (out ++ foldr append EmptyString
                      (imap (fun j c => Show_bucket (Z.of_nat (length pre + j)) c) rest))%string.
Proof.
  revert pre out. induction rest as [|c rest IH]; intros pre out Hmax.
  - simpl. f_equal. induction out as [|x out IHo]; simpl; [done|]. by rewrite <- IHo.
  - cbn [length Show_from].
    assert (Hat : at_index (pre ++ c :: rest) (Z.of_nat (length pre)) = Returns c).
    { unfold at_index, index. rewrite to_size_t_small, Nat2Z.id.
      - by rewrite list_lookup_middle.
      - unfold INT_MAX in Hmax. simpl in Hmax. lia. }
    rewrite Hat. simpl in Hmax.
    cbn [mbind outcome_bind].
    destruct (decide (INT_MAX < Z.of_nat (length pre) + 1)) as [Hover|_]; [lia|].
    replace (Z.of_nat (length pre) + 1) with (Z.of_nat (length (pre ++ [c])))
      by (rewrite length_app; simpl; lia).
    replace (pre ++ c :: rest) with ((pre ++ [c]) ++ rest) by (by rewrite <- app_assoc).
    rewrite IH by (rewrite length_app; simpl; lia).
    f_equal. rewrite imap_cons. cbn [foldr]. rewrite string_app_assoc.
    rewrite Nat.add_0_r. do 2 f_equal. f_equal.
    apply imap_ext. intros j b _. simpl. rewrite length_app. simpl.
    do 2 f_equal. lia.
Qed.


(** after [Clear], [Show] indexes the empty bucket vector *)
Theorem Show_after_Clear t :
  1 <= table_size t -> Show (Clear t) = Undefined out_of_bounds.
Proof.
  intros Hsize. unfold Show. simpl.
  destruct (Z.to_nat (table_size t)) as [|n] eqn:Hn; [lia|]. reflexivity.
Qed.

End ShowProperties.

(** * The store of nodes: destruction and copies *)

Section StoreLaws.

Context {Key Value : Type}.

Implicit Types (s : list (option (@Store.Node Key Value))) (n : @Store.Node Key Value).
Implicit Types (c : list (Key * Value)) (p : option nat).

Lemma release_null (fuel : nat) s : Store.release fuel s None = s.
Proof. by destruct fuel. Qed.

(** the nodes of a chain are laid out after the store, and releasing the
    pointer that owns them releases exactly them *)
Lemma store_chain_release s0 c :
  exists cells p,
    Store.store_chain s0 c = (s0 ++ cells, p) /\
    length cells = length c /\
    forall (A B : list (option (@Store.Node Key Value))) (fuel : nat),
      length A = length s0 -> (length c <= fuel)%nat ->
      Store.release fuel (A ++ cells ++ B) p = A ++ replicate (length c) None ++ B.
Proof.
  induction c as [|[k v] c IH].
  - exists [], None. split; [by rewrite app_nil_r|]. split; [done|].
    intros A B fuel _ _. by rewrite release_null.
  - destruct IH as (cells & p & Hstore & Hlen & Hrel).
    exists (cells ++ [Some (Store.mkNode k v p)]), (Some (length (s0 ++ cells))).
    split; [|split].
    + cbn [Store.store_chain]. rewrite Hstore. unfold Store.make_unique.
      by rewrite app_assoc.
    + rewrite length_app. simpl. lia.
    + intros A B [|fuel] HA Hfuel; [simpl in Hfuel; lia|].
      cbn [Store.release].
      assert (Haddr : length (s0 ++ cells) = length (A ++ cells))
        by (rewrite !length_app; lia).
      rewrite Haddr, <- !app_assoc, (app_assoc A cells).
      cbn [app]. rewrite list_lookup_middle by done. cbn [Store.next].
      replace (length (A ++ cells)) with (length (A ++ cells) + 0)%nat at 1 by lia.
      rewrite insert_app_r. cbn [insert list_insert]. rewrite <- app_assoc.
      rewrite (Hrel A (None :: B) fuel HA) by (simpl in Hfuel; lia).
      cbn [length]. by rewrite replicate_S_end, <- app_assoc.
Qed.

Lemma length_release (fuel : nat) s p : length (Store.release fuel s p) = length s.
Proof.
  revert s p. induction fuel as [|fuel IH]; intros s [a|]; cbn [Store.release]; try done.
  destruct (s !! a) as [[n|]|]; try done. by rewrite IH, length_insert.
Qed.

(** the chains of a bucket vector are laid out one after the other, and
    [buckets.clear()] releases every node of them *)
Lemma store_buckets_release s0 (bs : list (list (Key * Value))) :
  exists cells ps,
    Store.store_buckets s0 bs = (s0 ++ cells, ps) /\
    length cells = length (concat bs) /\
    forall (A : list (option (@Store.Node Key Value))),
      length A = length s0 ->
      foldl (fun s p => Store.release (length s) s p) (A ++ cells) ps
      = A ++ replicate (length cells) None.
Proof.
  revert s0. induction bs as [|c bs IH]; intros s0.
  - exists [], []. split; [by rewrite app_nil_r|]. split; [done|].
    intros A _. simpl. by rewrite app_nil_r.
  - destruct (store_chain_release s0 c) as (cc & p & Hc & Hlc & Hrel).
    destruct (IH (s0 ++ cc)) as (cr & ps & Hr & Hlr & Hfold).
    exists (cc ++ cr), (p :: ps). split; [|split].
    + cbn [Store.store_buckets]. rewrite Hc, Hr. by rewrite app_assoc.
    + simpl. rewrite !length_app. lia.
    + intros A HA. cbn [foldl].
      rewrite (Hrel A cr _ HA) by (rewrite !length_app; lia).
      rewrite app_assoc, Hfold.
      * rewrite <- app_assoc, length_app, replicate_add. by rewrite Hlc.
      * rewrite !length_app, length_replicate. lia.
Qed.

(** the destructor releases every node of the table, one for each entry,
    and leaves none live *)
Theorem destructor_releases_every_node (t : @HashTable Key Value) s ts :
  Store.store_table [] t = (s, ts) ->
  length s = length (concat (buckets t)) /\
  destructor s ts = replicate (length s) None.
Proof.
  destruct t as [bs size count load]. unfold Store.store_table, destructor, Store.Clear.
  destruct (store_buckets_release [] bs) as (cells & ps & Hstore & Hlen & Hfold).
  simpl in Hstore. rewrite Hstore. intros [= <- <-]. simpl.
  split; [done|]. by apply (Hfold []).
Qed.

End StoreLaws.

(** ** The copy constructor on chains of at most one node *)

Section CopyLaws.

Context {Key Value : Type}.

Implicit Types (s : list (option (@Store.Node Key Value))) (n : @Store.Node Key Value).
Implicit Types (c : list (Key * Value)) (p : option nat).

Lemma owns_single_app s s2 p c : owns_single s p c -> owns_single (s ++ s2) p c.
Proof.
  destruct c as [|[k v] [|e c]], p as [a|]; simpl; try done.
  apply lookup_app_l_Some.
Qed.

Lemma owns_single_load s p c :
  owns_single s p c -> Store.load_chain (length s) s p = Some c.
Proof.
  destruct c as [|[k v] [|e c]], p as [a|]; simpl; try done.
  - by destruct (length s).
  - intros Ha. pose proof (lookup_lt_Some _ _ _ Ha) as Hlt.
    destruct (length s) as [|f]; [lia|]. cbn [Store.load_chain]. rewrite Ha.
    simpl. by destruct f.
Qed.

(** the chains of a table without collisions, in the store *)
Lemma store_buckets_single s0 (bs : list (list (Key * Value))) :
  Forall (fun c => (length c <= 1)%nat) bs ->
  exists cells ps,
    Store.store_buckets s0 bs = (s0 ++ cells, ps) /\
    Forall2 (owns_single (s0 ++ cells)) ps bs.
Proof.
  intros Hbs. revert s0. induction Hbs as [|c bs Hc _ IH]; intros s0.
  - exists [], []. split; [by rewrite app_nil_r|constructor].
  - destruct c as [|[k v] [|e c]]; [| |simpl in Hc; lia].
    + destruct (IH s0) as (cells & ps & Hstore & Hall).
      exists cells, (None :: ps). split.
      * cbn [Store.store_buckets Store.store_chain]. by rewrite Hstore.
      * by constructor.
    + destruct (IH (s0 ++ [Some (Store.mkNode k v None)])) as (cells & ps & Hstore & Hall).
      exists ([Some (Store.mkNode k v None)] ++ cells), (Some (length s0) :: ps). split.
      * cbn [Store.store_buckets Store.store_chain]. unfold Store.make_unique.
        rewrite Hstore. by rewrite <- app_assoc.
      * rewrite app_assoc. constructor; [|done]. simpl.
        apply lookup_app_l_Some. by rewrite list_lookup_middle.
Qed.

Lemma copy_chain_null (fuel : nat) (source copy : list (option nat)) (i : Z) s p :
  Store.copy_chain fuel source i (Store.mkCopying s copy None p)
  = Some (Returns (Store.mkCopying s copy None p)).
Proof. by destruct fuel. Qed.

(** the loop of [CopyBuckets] over the buckets from [length done] on, when
    no chain has a second node: each node gets a new node in the copy *)
Lemma copy_from_single (fuel : nat) (source : list (option nat))
    (cs : list (list (Key * Value))) :
  (1 <= fuel)%nat -> Z.of_nat (length cs) <= INT_MAX ->
  forall (rest finished : list (list (Key * Value))) s (copied : list (option nat)),
    cs = finished ++ rest ->
    Forall2 (owns_single s) source cs ->
    Forall2 (owns_single s) copied finished ->
    exists new fresh,
      Store.copy_from fuel (length rest) (Z.of_nat (length finished)) source s
                      (copied ++ replicate (length rest) None)
      = Some (Returns (s ++ new, copied ++ fresh)) /\
      Forall2 (owns_single (s ++ new)) (copied ++ fresh) cs /\
      Forall (fun p => forall a, p = Some a -> (length s <= a)%nat) fresh.
Proof.
  intros Hfuel Hmax rest. induction rest as [|c rest IH];
    intros finished s copied Hcs Hsource Hcopied.
  - exists [], []. rewrite !app_nil_r in *. subst cs. by repeat split.
  - pose proof (Forall2_length _ _ _ Hcopied) as Hlen.
    assert (Hc : cs !! length finished = Some c) by (subst cs; apply list_lookup_middle; done).
    destruct (Forall2_lookup_r _ _ _ _ _ Hsource Hc) as (p & Hp & Hown).
    assert (Hi : Store.index (Z.of_nat (length finished)) = length finished).
    { unfold Store.index. rewrite to_size_t_small, Nat2Z.id; [done|].
      apply lookup_lt_Some in Hc. unfold INT_MAX in Hmax. lia. }
    assert (Hnext : ~ INT_MAX < Z.of_nat (length finished) + 1).
    { apply lookup_lt_Some in Hc. lia. }
    assert (Hcopy : (copied ++ None :: replicate (length rest) None) !! length finished
                    = Some None).
    { rewrite <- Hlen. by apply list_lookup_middle. }
    assert (Hsucc : Z.of_nat (length finished) + 1 = Z.of_nat (length (finished ++ [c])))
      by (rewrite length_app; simpl; lia).
    assert (Hcs' : cs = (finished ++ [c]) ++ rest) by (by rewrite <- app_assoc).
    cbn [length replicate Store.copy_from]. unfold Store.at_index at 1. rewrite Hi, Hp.
    destruct c as [|[k v] [|e c]], p as [a|]; simpl in Hown; try done.
    + (* an empty bucket *)
      rewrite copy_chain_null. cbn [Store.nodes Store.copy].
      destruct (decide (INT_MAX < Z.of_nat (length finished) + 1)) as [?|_]; [done|].
      rewrite Hsucc.
      replace (copied ++ None :: replicate (length rest) None)
        with ((copied ++ [None]) ++ replicate (length rest) None)
        by (by rewrite <- app_assoc).
      destruct (IH (finished ++ [[]]) s (copied ++ [None]) Hcs' Hsource)
        as (new & fresh & Hrun & Hall & Hfresh).
      { apply Forall2_app; [done|]. by repeat constructor. }
      exists new, (None :: fresh). rewrite Hrun.
      split; [by rewrite <- app_assoc|]. split; [by rewrite <- app_assoc in Hall|].
      constructor; [done|exact Hfresh].
    + (* a bucket of one node *)
      destruct fuel as [|fuel]; [lia|]. cbn [Store.copy_chain Store.current].
      unfold Store.link_copy. cbn [Store.nodes Store.previous Store.copy].
      rewrite (deref_live s a _ Hown), bind_Returns. unfold Store.make_unique.
      unfold Store.at_index. rewrite Hi, Hcopy, Hp. rewrite !bind_Returns.
      rewrite release_null. cbn [fst snd].
      unfold Store.advance. cbn [Store.nodes Store.previous Store.copy].
      rewrite (deref_live (s ++ _) a (Store.mkNode k v None)) by (by apply lookup_app_l_Some).
      rewrite bind_Returns. cbn [Store.next Store.key Store.value].
      rewrite copy_chain_null. cbn [Store.nodes Store.copy].
      destruct (decide (INT_MAX < Z.of_nat (length finished) + 1)) as [?|_]; [done|].
      rewrite Hsucc.
      replace (<[length finished := Some (length s)]>
                 (copied ++ None :: replicate (length rest) None))
        with ((copied ++ [Some (length s)]) ++ replicate (length rest) None).
      2:{ pose proof (insert_app_r copied (None :: replicate (length rest) None) 0
                        (Some (length s))) as Hins.
          rewrite Nat.add_0_r in Hins. rewrite <- Hlen, Hins. simpl.
          by rewrite <- app_assoc. }
      set (cell := Some (Store.mkNode k v None)).
      destruct (IH (finished ++ [[(k, v)]]) (s ++ [cell]) (copied ++ [Some (length s)]) Hcs')
        as (new & fresh & Hrun & Hall & Hfresh).
      { eapply Forall2_impl; [exact Hsource|]. intros. by apply owns_single_app. }
      { apply Forall2_app.
        - eapply Forall2_impl; [exact Hcopied|]. intros. by apply owns_single_app.
        - repeat constructor. simpl. by apply list_lookup_middle. }
      exists ([cell] ++ new), (Some (length s) :: fresh). rewrite Hrun.
      split; [by rewrite <- !app_assoc|].
      split; [by rewrite <- !app_assoc in *|].
      constructor.
      * by intros ? [= <-].
      * eapply Forall_impl; [exact Hfresh|]. intros q Hq b Hb.
        specialize (Hq b Hb). rewrite length_app in Hq. lia.
Qed.

(** on a table no chain of which has a second node, the copy constructor
    returns a deep copy: the copy holds the contents of the source in
    nodes of its own, and the nodes of the source are as they were *)
Theorem HashTable_copy_without_collisions (fuel : nat) (t : @HashTable Key Value) s ts :
  Forall (fun c => (length c <= 1)%nat) (buckets t) ->
  length (buckets t) = Z.to_nat (table_size t) ->
  table_size t <= INT_MAX ->
  (1 <= fuel)%nat ->
  Store.store_table [] t = (s, ts) ->
  exists new tc,
    Store.HashTable_copy fuel s ts = Some (Returns (s ++ new, tc)) /\
    Store.load_table (s ++ new) tc = Some t /\
    Store.load_table (s ++ new) ts = Some t /\
    Forall (fun p => forall a, p = Some a -> (length s <= a)%nat) (Store.buckets tc).
Proof.
  destruct t as [bs size count load]. simpl. intros Hsingle Hlen Hmax Hfuel.
  unfold Store.store_table.
  destruct (store_buckets_single [] bs Hsingle) as (cells & ps & Hstore & Hown).
  simpl in Hstore. rewrite Hstore. intros [= <- <-].
  pose proof (Forall2_length _ _ _ Hown) as Hps.
  destruct (copy_from_single fuel ps bs Hfuel) with (rest := bs) (finished := @nil (list (Key * Value)))
    (s := cells) (copied := @nil (option nat)) as (new & fresh & Hrun & Hall & Hfresh);
    [transitivity (Z.of_nat (Z.to_nat size)); [apply Nat2Z.inj_le, Nat.eq_le_incl; exact Hlen|
       unfold INT_MAX in *; lia]|done|done|constructor|].
  simpl in Hrun. change (Z.of_nat 0) with 0 in Hrun.
  assert (Hlen' : @length (list (Key * Value)) bs = Z.to_nat size) by exact Hlen.
  rewrite Hlen' in Hrun.
  exists new, (Store.mkTable fresh size count load).
  split.
  { unfold Store.HashTable_copy, Store.CopyBuckets.
    cbn [Store.table_size Store.buckets Store.element_count Store.load_refactor].
    by rewrite Hrun. }
  assert (Hload : forall qs, Forall2 (owns_single (cells ++ new)) qs bs ->
            Store.load_table (cells ++ new) (Store.mkTable qs size count load)
            = Some (mkHashTable bs size count load)).
  { intros qs Hqs. unfold Store.load_table.
    cbn [Store.table_size Store.buckets Store.element_count Store.load_refactor].
    unfold chain.
    match goal with
    | |- context [mapM ?f ?l] => assert (Hmap : mapM f l = Some bs)
    end.
    { apply mapM_Some_2. eapply Forall2_impl; [exact Hqs|].
      intros. by apply owns_single_load. }
    by rewrite Hmap. }
  split; [by apply Hload|]. split; [|exact Hfresh].
  apply Hload. eapply Forall2_impl; [exact Hown|]. intros. by apply owns_single_app.
Qed.

End CopyLaws.

(** ** What holds of every state the operations lead to *)

Section Reachable.

Context {Key Value : Type} `{EqDecision Key} `{Hash Key}.

Implicit Types (t : @HashTable Key Value) (key : Key) (value : Value).
Implicit Types (c : @chain Key Value).

Lemma length_concat_insert {A} (bs : list (list A)) (i : nat) (c c' : list A) :
  bs !! i = Some c ->
  (length (concat (<[i := c']> bs)) + length c = length (concat bs) + length c')%nat.
Proof.
  revert i. induction bs as [|b bs IH]; intros [|i] Hi; simplify_eq/=.
  - rewrite !length_app. lia.
  - rewrite !length_app. specialize (IH i Hi). lia.
Qed.

Lemma assign_node_length c key value c' :
  assign_node c key value = Some c' -> length c' = length c.
Proof.
  intros Ha. destruct (assign_node_Some c key value c' Ha) as (_ & Hkeys & _).
  by rewrite <- (length_fmap fst c'), Hkeys, length_fmap.
Qed.

Lemma unlink_node_length c key c' :
  unlink_node c key = Some c' -> length c = S (length c').
Proof.
  intros Hu. destruct (unlink_node_Some c key c' Hu) as ([v Hperm] & _ & _).
  by rewrite Hperm.
Qed.

Lemma relocate_entries t c (nb nb' : list (@chain Key Value)) :
  relocate t c nb = Returns nb' ->
  length nb' = length nb /\
  length (concat nb') = (length c + length (concat nb))%nat.
Proof.
  revert nb. induction c as [|[k v] c IH]; simpl; intros nb.
  - by intros [= <-].
  - destruct (HashFunction t k) as [h| |]; [simpl|done..].
    destruct (at_index nb h) as [b| |] eqn:Hb; [simpl|done..].
    apply at_index_Returns in Hb. intros Hrun.
    destruct (IH _ Hrun) as [Hlen Hcount]. rewrite length_insert in Hlen.
    split; [done|]. rewrite Hcount.
    pose proof (length_concat_insert nb (index h) b ((k, v) :: b) Hb) as Hins.
    unfold chain in *. simpl in Hins. lia.
Qed.

Lemma relocate_all_entries t (bs nb nb' : list (@chain Key Value)) :
  relocate_all t bs nb = Returns nb' ->
  length nb' = length nb /\
  length (concat nb') = (length (concat bs) + length (concat nb))%nat.
Proof.
  revert nb. induction bs as [|c bs IH]; simpl; intros nb.
  - by intros [= <-].
  - destruct (relocate t c nb) as [nb1| |] eqn:Hc; [simpl|done..]. intros Hrun.
    destruct (relocate_entries t c nb nb1 Hc) as [Hl1 Hc1].
    destruct (IH _ Hrun) as [Hl Hcount].
    split; [lia|]. rewrite length_app. lia.
Qed.

Lemma Resize_entries t t' :
  Resize t = Returns t' ->
  element_count t' = element_count t /\
  length (entries t') = length (entries t) /\
  length (buckets t') = Z.to_nat (table_size t').
Proof.
  unfold Resize.
  destruct (relocate_all t (buckets t) _) as [nb| |] eqn:Hrun; [simpl|done..].
  intros [= <-]. simpl.
  destruct (relocate_all_entries _ _ _ _ Hrun) as [Hlen Hcount].
  rewrite length_replicate in Hlen. unfold entries. simpl.
  rewrite Hcount, entries_replicate_nil. simpl. split; [done|]. split; [lia|done].
Qed.

Lemma to_size_t_succ (n : nat) :
  to_size_t (to_size_t (Z.of_nat n) + 1) = to_size_t (Z.of_nat (S n)).
Proof.
  unfold to_size_t, SIZE_WIDTH. rewrite Zplus_mod_idemp_l. f_equal. lia.
Qed.

Lemma to_size_t_pred (n : nat) :
  to_size_t (to_size_t (Z.of_nat (S n)) - 1) = to_size_t (Z.of_nat n).
Proof.
  unfold to_size_t, SIZE_WIDTH. rewrite Zminus_mod_idemp_l. f_equal. lia.
Qed.

Lemma Insert_node_entries t key value t' :
  Insert_node t key value = Returns t' ->
  element_count t = to_size_t (Z.of_nat (length (entries t))) ->
  element_count t' = to_size_t (Z.of_nat (length (entries t'))) /\
  length (buckets t') = length (buckets t) /\
  table_size t' = table_size t /\
  buckets t' <> [].
Proof.
  unfold Insert_node.
  destruct (HashFunction t key) as [h| |]; [simpl|done..].
  destruct (at_index (buckets t) h) as [b| |] eqn:Hb; [simpl|done..].
  apply at_index_Returns in Hb. intros Hrun Hcount.
  assert (Hne : forall b', <[index h := b']> (buckets t) <> []).
  { intros b' Hnil. apply (f_equal length) in Hnil. rewrite length_insert in Hnil.
    apply lookup_lt_Some in Hb. simpl in Hnil. lia. }
  destruct (assign_node b key value) as [b'|] eqn:Ha; injection Hrun as <-;
    unfold entries; simpl; rewrite length_insert; (split; [|by auto]).
  - pose proof (length_concat_insert (buckets t) (index h) b b' Hb) as Hins.
    rewrite (assign_node_length _ _ _ _ Ha) in Hins.
    rewrite Hcount. unfold entries, chain in *. f_equal. lia.
  - pose proof (length_concat_insert (buckets t) (index h) b ((key, value) :: b) Hb) as Hins.
    simpl in Hins. rewrite Hcount, to_size_t_succ. unfold entries, chain in *.
    f_equal. lia.
Qed.

(** whenever [Insert] returns, with or without a growth, [Get] returns
    the value and [ContainsKey] is true for the key *)
Theorem Insert_then_Get t key value t' :
  Insert t key value = Returns t' ->
  Get t' key = Returns value /\ ContainsKey t' key = Returns true.
Proof.
  unfold Insert.
  destruct (if load_reached t then Resize t else Returns t) as [t1| |]; [simpl|done..].
  apply Insert_node_Get.
Qed.

(** in every state that the constructor, [Insert], [Remove], [Resize] and
    [Clear] lead to, [Size()] is the number of stored nodes (as a
    [size_t]), also where a growth has left two nodes with one key, and
    the bucket vector has [table_size] chains unless [Clear] has emptied
    it *)
Theorem reachable_Size_counts_nodes t :
  reachable t ->
  Size t = to_size_t (Z.of_nat (length (entries t))) /\
  (buckets t = [] \/ length (buckets t) = Z.to_nat (table_size t)).
Proof.
  unfold Size. induction 1 as [size load t Hnew|t key value t' _ [IHc IHb] Hrun
    |t key t' _ [IHc IHb] Hrun|t t' _ [IHc IHb] Hrun|t _ [IHc IHb]].
  - unfold HashTable_new in Hnew.
    destruct (decide (max_size < size)); [done|]. injection Hnew as <-.
    unfold entries. simpl.
    rewrite entries_replicate_nil, length_replicate. by split; [|right].
  - unfold Insert in Hrun.
    assert (Hgrown : forall t1, (if load_reached t then Resize t else Returns t) = Returns t1 ->
              element_count t1 = to_size_t (Z.of_nat (length (entries t1))) /\
              (buckets t1 = [] \/ length (buckets t1) = Z.to_nat (table_size t1))).
    { intros t1. destruct (load_reached t).
      - intros Hr. destruct (Resize_entries t t1 Hr) as (Hc & He & Hl).
        rewrite Hc, He. by split; [|right].
      - by intros [= <-]. }
    destruct (if load_reached t then Resize t else Returns t) as [t1| |]; [simpl in Hrun|done..].
    destruct (Hgrown t1 eq_refl) as [Hc1 Hb1].
    destruct (Insert_node_entries t1 key value t' Hrun Hc1) as (Hc & Hl & Hs & Hne).
    split; [done|]. right. rewrite Hl, Hs. destruct Hb1 as [Hnil|Hb1]; [|done].
    rewrite Hnil in Hl. by destruct (buckets t').
  - unfold Remove in Hrun.
    destruct (HashFunction t key) as [h| |]; [simpl in Hrun|done..].
    destruct (at_index (buckets t) h) as [b| |] eqn:Hb; [simpl in Hrun|done..].
    apply at_index_Returns in Hb.
    destruct (unlink_node b key) as [b'|] eqn:Hu; [|done]. injection Hrun as <-.
    unfold entries in *. simpl. rewrite length_insert.
    pose proof (length_concat_insert (buckets t) (index h) b b' Hb) as Hins.
    rewrite (unlink_node_length _ _ _ Hu) in Hins.
    unfold chain in *. split.
    + rewrite IHc.
      replace (length (concat (buckets t)))
        with (S (length (concat (<[index h := b']> (buckets t)))))
        by (unfold chain; lia).
      apply to_size_t_pred.
    + destruct IHb as [Hnil|IHb]; [|by right]. by rewrite Hnil in Hb.
  - destruct (Resize_entries t t' Hrun) as (Hc & He & Hl).
    rewrite Hc, He. by split; [|right].
  - simpl. by split; [|left].
Qed.

(** on a table that satisfies the invariants, [Size()] is the number of
    entries, and [IsEmpty()] is true exactly when [ContainsKey] is false
    for every key *)
Theorem IsEmpty_iff_no_key t :
  invariant t ->
  Size t = Z.of_nat (length (entries t)) /\
  (IsEmpty t = true <-> forall key, ContainsKey t key = Returns false).
Proof.
  intros (Hu & Hplaced & _ & Hcount & _). split; [done|].
  unfold IsEmpty. rewrite bool_decide_eq_true, Hcount. split.
  - intros Hnone key. destruct (usable_bucket t key Hu) as [c Hc].
    rewrite (ContainsKey_usable t key c Hu Hc). f_equal.
    apply bool_decide_eq_false. rewrite find_node_is_Some. intros [v Hv].
    assert (Hin : (key, v) ∈ entries t) by (apply elem_of_entries; eauto).
    destruct (entries t); [inversion Hin|simpl in Hnone; lia].
  - intros Hnone. destruct (entries t) as [|[k v] es] eqn:He; [done|exfalso].
    assert (Hin : (k, v) ∈ entries t) by (rewrite He; apply list_elem_of_here).
    destruct (usable_bucket t k Hu) as [c Hc].
    apply (placed_entries t k v c Hplaced Hc) in Hin.
    specialize (Hnone k). rewrite (ContainsKey_usable t k c Hu Hc) in Hnone.
    injection Hnone as Hnone. apply bool_decide_eq_false in Hnone.
    apply Hnone, find_node_is_Some. by exists v.
Qed.

(** on a table of at most 2^32 buckets, [Get], [ContainsKey] and [Remove]
    index the bucket vector out of bounds exactly for the keys whose slot
    does not fit the [int] that [HashFunction] returns *)
Theorem keyed_operations_undefined_iff t key :
  length (buckets t) = Z.to_nat (table_size t) ->
  1 <= table_size t <= 2 ^ 32 ->
  (Get t key = Undefined out_of_bounds <-> INT_MAX < std_hash key mod table_size t) /\
  (ContainsKey t key = Undefined out_of_bounds
   <-> INT_MAX < std_hash key mod table_size t) /\
  (Remove t key = Undefined out_of_bounds <-> INT_MAX < std_hash key mod table_size t).
Proof.
  intros Hlen Hsize.
  pose proof (Z.mod_pos_bound (std_hash key) (table_size t)) as Hrem.
  destruct (decide (INT_MAX < std_hash key mod table_size t)) as [Hover|Hfits].
  - unfold Get, ContainsKey, Remove, HashFunction.
    destruct (decide (table_size t = 0)) as [Hz|_]; [lia|]. rewrite !bind_Returns.
    assert (Hout : at_index (buckets t) (to_int (std_hash key mod table_size t))
                   = Undefined out_of_bounds).
    { unfold at_index, index, to_int.
      replace (std_hash key mod table_size t + 2 ^ 31)
        with (std_hash key mod table_size t - 2 ^ 31 + 1 * 2 ^ 32) by lia.
      unfold INT_MAX in Hover. rewrite Z.mod_add by lia. rewrite Z.mod_small by lia.
      pose proof (to_size_t_negative (std_hash key mod table_size t - 2 ^ 31 - 2 ^ 31)) as Hneg.
      rewrite lookup_ge_None_2; [done|]. rewrite Hlen. lia. }
    rewrite Hout, !bind_Undefined. by repeat split.
  - unfold Get, ContainsKey, Remove, HashFunction.
    destruct (decide (table_size t = 0)) as [Hz|_]; [lia|].
    unfold INT_MAX in Hfits. rewrite to_int_small by lia. rewrite !bind_Returns.
    destruct (lookup_lt_is_Some_2 (buckets t) (index (std_hash key mod table_size t)))
      as [c Hc].
    { unfold index. rewrite to_size_t_small by lia. rewrite Hlen. lia. }
    unfold at_index. rewrite Hc, !bind_Returns.
    destruct (find_node c key), (unlink_node c key); by repeat split.
Qed.

End Reachable.

(** ** Copy assignment *)

Section CopyAssign.

Context {Key Value : Type}.

Implicit Types (s : list (option (@Store.Node Key Value))) (n : @Store.Node Key Value).
Implicit Types (c : list (Key * Value)) (p : option nat).

(** [buckets.clear()] releases the nodes of the table and no other *)
Lemma store_buckets_release_within s0 (bs : list (list (Key * Value))) :
  exists cells ps,
    Store.store_buckets s0 bs = (s0 ++ cells, ps) /\
    forall (A B : list (option (@Store.Node Key Value))),
      length A = length s0 ->
      foldl (fun s p => Store.release (length s) s p) (A ++ cells ++ B) ps
      = A ++ replicate (length cells) None ++ B.
Proof.
  revert s0. induction bs as [|c bs IH]; intros s0.
  - exists [], []. split; [by rewrite app_nil_r|]. by intros A B _.
  - destruct (store_chain_release s0 c) as (cc & p & Hc & Hlc & Hrel).
    destruct (IH (s0 ++ cc)) as (cr & ps & Hr & Hfold).
    exists (cc ++ cr), (p :: ps). split.
    + cbn [Store.store_buckets]. rewrite Hc, Hr. by rewrite app_assoc.
    + intros A B HA. cbn [foldl]. rewrite <- (app_assoc cc cr B).
      rewrite (Hrel A (cr ++ B) _ HA) by (rewrite !length_app; lia).
      rewrite (app_assoc A), Hfold.
      * rewrite <- app_assoc, length_app, replicate_add, Hlc. by rewrite <- app_assoc.
      * rewrite !length_app, length_replicate. lia.
Qed.

(** the pointer of an empty chain is null, and the pointer of any other
    chain designates a live node allocated after the store *)
Lemma store_chain_head s0 c :
  exists cells p,
    Store.store_chain s0 c = (s0 ++ cells, p) /\
    length cells = length c /\
    match p with
    | None => c = []
    | Some a => c <> [] /\ (length s0 <= a)%nat /\
                exists n, (s0 ++ cells) !! a = Some (Some n)
    end.
Proof.
  destruct c as [|[k v] c].
  - exists [], None. by rewrite app_nil_r.
  - destruct (store_chain_release s0 c) as (cells & p & Hs & Hl & _).
    exists (cells ++ [Some (Store.mkNode k v p)]), (Some (length (s0 ++ cells))).
    split; [|split; [|split; [done|split]]].
    + cbn [Store.store_chain]. rewrite Hs. unfold Store.make_unique. by rewrite app_assoc.
    + rewrite length_app. simpl. lia.
    + rewrite length_app. lia.
    + exists (Store.mkNode k v p). rewrite app_assoc. by apply list_lookup_middle.
Qed.

Lemma store_buckets_heads s0 (bs : list (list (Key * Value))) :
  exists cells ps,
    Store.store_buckets s0 bs = (s0 ++ cells, ps) /\
    length cells = length (concat bs) /\
    Forall2 (fun p c => match p with
                        | None => c = []
                        | Some a => c <> [] /\ (length s0 <= a)%nat /\
                                    exists n, (s0 ++ cells) !! a = Some (Some n)
                        end) ps bs.
Proof.
  revert s0. induction bs as [|c bs IH]; intros s0.
  - exists [], []. split; [by rewrite app_nil_r|]. split; [done|constructor].
  - destruct (store_chain_head s0 c) as (cc & p & Hc & Hlc & Hp).
    destruct (IH (s0 ++ cc)) as (cr & ps & Hr & Hlr & Hps).
    exists (cc ++ cr), (p :: ps). split; [|split].
    + cbn [Store.store_buckets]. rewrite Hc, Hr. by rewrite app_assoc.
    + simpl. rewrite !length_app. lia.
    + constructor.
      * destruct p as [a|]; [|done]. destruct Hp as (Hne & Ha & n & Hn).
        split; [done|]. split; [done|]. exists n. rewrite app_assoc.
        by apply lookup_app_l_Some.
      * eapply Forall2_impl; [exact Hps|]. intros [a|] c'; [|done].
        intros (Hne & Ha & n & Hn). split; [done|]. split.
        -- rewrite length_app in Ha. lia.
        -- exists n. by rewrite app_assoc.
Qed.

(** the loop of [CopyBuckets] when [this->buckets] is empty: the first
    node of the source makes it assign to [buckets[i]] of the empty
    vector *)
Lemma copy_from_no_bucket (fuel : nat) (source : list (option nat))
    (cs : list (list (Key * Value))) s :
  (1 <= fuel)%nat -> Z.of_nat (length cs) <= INT_MAX ->
  Forall2 (fun p c => match p with
                      | None => c = []
                      | Some a => c <> [] /\ exists n, s !! a = Some (Some n)
                      end) source cs ->
  forall (rest finished : list (list (Key * Value))),
    cs = finished ++ rest ->
    Store.copy_from fuel (length rest) (Z.of_nat (length finished)) source s []
    = Some (match concat rest with
            | [] => Returns (s, [])
            | _ :: _ => Undefined out_of_bounds
            end).
Proof.
  intros Hfuel Hmax Hsource rest. induction rest as [|c rest IH]; intros finished Hcs.
  - done.
  - assert (Hc : cs !! length finished = Some c) by (subst cs; by apply list_lookup_middle).
    destruct (Forall2_lookup_r _ _ _ _ _ Hsource Hc) as (p & Hp & Hhead).
    assert (Hi : Store.index (Z.of_nat (length finished)) = length finished).
    { unfold Store.index. rewrite to_size_t_small, Nat2Z.id; [done|].
      apply lookup_lt_Some in Hc. unfold INT_MAX in Hmax. lia. }
    assert (Hnext : ~ INT_MAX < Z.of_nat (length finished) + 1).
    { apply lookup_lt_Some in Hc. lia. }
    assert (Hsucc : Z.of_nat (length finished) + 1 = Z.of_nat (length (finished ++ [c])))
      by (rewrite length_app; simpl; lia).
    assert (Hcs' : cs = (finished ++ [c]) ++ rest) by (by rewrite <- app_assoc).
    cbn [length Store.copy_from]. unfold Store.at_index at 1. rewrite Hi, Hp.
    destruct p as [a|].
    + destruct Hhead as (Hne & n & Hn).
      destruct fuel as [|fuel]; [lia|]. cbn [Store.copy_chain Store.current].
      unfold Store.link_copy. cbn [Store.nodes Store.previous Store.copy].
      rewrite (deref_live s a n Hn), bind_Returns. unfold Store.make_unique.
      unfold Store.at_index. rewrite lookup_nil. rewrite bind_Undefined.
      by destruct c.
    + subst c. rewrite copy_chain_null. cbn [Store.nodes Store.copy].
      destruct (decide (INT_MAX < Z.of_nat (length finished) + 1)) as [?|_]; [done|].
      rewrite Hsucc. simpl. by apply IH.
Qed.

(** copy assignment never fills the destination: [Clear()] leaves
    [this->buckets] empty, so the first node of the source makes
    [CopyBuckets] assign to an element of the empty vector, and a source
    without entries leaves the destination with no bucket under the
    capacity of the source *)
Theorem copy_assign_has_no_bucket (fuel : nat) (this other : @HashTable Key Value)
    s1 tthis s2 tother :
  Store.store_table [] this = (s1, tthis) ->
  Store.store_table s1 other = (s2, tother) ->
  length (buckets other) = Z.to_nat (table_size other) ->
  table_size other <= INT_MAX ->
  (1 <= fuel)%nat ->
  (entries other <> [] ->
   Store.copy_assign fuel s2 tthis tother = Some (Undefined out_of_bounds)) /\
  (entries other = [] ->
   Store.copy_assign fuel s2 tthis tother
   = Some (Returns (replicate (length s2) None,
                    Store.mkTable [] (table_size other) (element_count other)
                                  (load_refactor other)))).
Proof.
  destruct this as [bt st ct lt], other as [bo so co lo]. unfold Store.store_table, entries.
  cbn [buckets table_size element_count load_refactor].
  destruct (store_buckets_release_within [] bt) as (cells & pt & Hst & Hfold).
  simpl in Hst. rewrite Hst. intros [= <- <-].
  destruct (store_buckets_heads cells bo) as (cells' & po & Hso & Hlen' & Hheads).
  rewrite Hso. intros [= <- <-] Hlen Hmax Hfuel.
  unfold Store.copy_assign, Store.Clear, Store.CopyBuckets.
  cbn [Store.buckets Store.table_size Store.element_count Store.load_refactor].
  specialize (Hfold [] cells' eq_refl). simpl in Hfold. rewrite Hfold.
  assert (Hlen2 : @length (list (Key * Value)) bo = Z.to_nat so) by exact Hlen.
  assert (Hmax' : Z.of_nat (@length (list (Key * Value)) bo) <= INT_MAX)
    by (rewrite Hlen2; unfold INT_MAX in *; lia).
  assert (Hlive : Forall2 (fun p c => match p with
                      | None => c = []
                      | Some a => c <> [] /\
                          exists n, (replicate (length cells) None ++ cells') !! a
                                    = Some (Some n)
                      end) po bo).
  { eapply Forall2_impl; [exact Hheads|]. intros [a|] c; [|done].
    intros (Hne & Ha & n & Hn). split; [done|]. exists n.
    rewrite lookup_app_r in Hn by done.
    rewrite lookup_app_r by (by rewrite length_replicate).
    by rewrite length_replicate. }
  pose proof (copy_from_no_bucket fuel po bo _ Hfuel Hmax' Hlive bo [] eq_refl) as Hrun.
  simpl in Hrun. change (Z.of_nat 0) with 0 in Hrun.
  rewrite Hlen2 in Hrun. rewrite Hrun. split.
  - intros Hne. by destruct (concat bo).
  - intros Hnil. rewrite Hnil in Hlen' |- *.
    destruct cells'; [|done]. by rewrite !app_nil_r.
Qed.

End CopyAssign.

(** ** Instances of the laws, on tables of [int] keys and values *)

(** [t(2, 0.75)] with the keys 2 and 1: removing key 1 *)
Lemma Remove_then_Get_throws_witness :
  Remove (mkHashTable [[(2, 20)]; [(1, 10)]] 2 2 float_0_75) 1
    = Returns (mkHashTable [[(2, 20)]; []] 2 1 float_0_75) /\
  Get (mkHashTable [[(2, 20)]; []] 2 1 float_0_75) 1 = Throws (out_of_range Get_what) /\
  ContainsKey (mkHashTable [[(2, 20)]; []] 2 1 float_0_75) 1 = Returns false /\
  Remove (mkHashTable [[(2, 20)]; []] 2 1 float_0_75) 1
    = Throws (out_of_range Remove_what).
Proof.
  destruct two_slot_table_invariant as (Hu & Hp & Hd & _).
  assert (HR : Remove (mkHashTable [[(2, 20)]; [(1, 10)]] 2 2 float_0_75) 1
               = Returns (mkHashTable [[(2, 20)]; []] 2 1 float_0_75))
    by (vm_compute; reflexivity).
  destruct (Remove_then_Get_throws _ 1 _ Hu Hp Hd HR) as (HG & HC & HR2 & _).
  split; [exact HR|]. split; [exact HG|]. split; [exact HC|exact HR2].
Defined.

(** [t(4, 0.75); t.Insert(1, 10); t.Insert(5, 50); t.Remove(5)] *)
Lemma Insert_then_Remove_restores_witness :
  Insert (mkHashTable [[]; [(1, 10)]; []; []] 4 1 float_0_75) 5 50
    = Returns (mkHashTable [[]; [(5, 50); (1, 10)]; []; []] 4 2 float_0_75) /\
  Remove (mkHashTable [[]; [(5, 50); (1, 10)]; []; []] 4 2 float_0_75) 5
    = Returns (mkHashTable [[]; [(1, 10)]; []; []] 4 1 float_0_75).
Proof.
  assert (HI : Insert (mkHashTable [[]; [(1, 10)]; []; []] 4 1 float_0_75) 5 50
               = Returns (mkHashTable [[]; [(5, 50); (1, 10)]; []; []] 4 2 float_0_75))
    by (vm_compute; reflexivity).
  split; [exact HI|].
  apply (Insert_then_Remove_restores _ 5 50 _); [| | | | |exact HI].
  - split; [reflexivity | unfold INT_MAX; simpl; lia].
  - intros v Hin. unfold entries in Hin. simpl in Hin.
    apply list_elem_of_singleton in Hin. discriminate.
  - vm_compute. reflexivity.
  - simpl. lia.
  - simpl. lia.
Defined.

(** [t(4, 0.75); t.Insert(1, 10); t.Insert(1, 20)] *)
Lemma Insert_again_overwrites_witness :
  Insert (mkHashTable [[]; []; []; []] 4 0 float_0_75) 1 10
    = Returns (mkHashTable [[]; [(1, 10)]; []; []] 4 1 float_0_75) /\
  exists t2,
    Insert (mkHashTable [[]; [(1, 10)]; []; []] 4 1 float_0_75) 1 20 = Returns t2 /\
    element_count t2 = 1 /\ table_size t2 = 4 /\ Get t2 1 = Returns 20.
Proof.
  assert (HI : Insert (mkHashTable [[]; []; []; []] 4 0 float_0_75) 1 10
               = Returns (mkHashTable [[]; [(1, 10)]; []; []] 4 1 float_0_75))
    by (vm_compute; reflexivity).
  split; [exact HI|].
  destruct (Insert_again_overwrites _ 1 10 _ 20 HI) as (t2 & HI2 & Hc & Hs & _ & HG & _).
  { vm_compute. reflexivity. }
  exists t2. split; [exact HI2|]. split; [exact Hc|]. split; [exact Hs|exact HG].
Defined.

(** [t.Clear()] and a growth on the table of the keys 2 and 1 *)
Lemma Resize_after_Clear_witness :
  exists t',
    Resize (Clear (mkHashTable [[(2, 20)]; [(1, 10)]] 2 2 float_0_75)) = Returns t' /\
    usable t' /\ table_size t' = 4 /\ element_count t' = 0 /\
    ContainsKey t' 1 = Returns false.
Proof.
  destruct (Resize_after_Clear (mkHashTable [[(2, 20)]; [(1, 10)]] 2 2 float_0_75) 1)
    as (t' & HR & Hu & Hs & Hc & _ & _ & HC & _).
  { simpl. lia. }
  { unfold INT_MAX. simpl. lia. }
  exists t'. split; [exact HR|]. split; [exact Hu|]. split; [exact Hs|].
  split; [exact Hc|exact HC].
Defined.

(** key 1 has slot 1 under the capacities 2 and 4 *)
Lemma Resize_keeps_unmoved_keys_witness :
  Resize (mkHashTable [[(2, 20)]; [(1, 10)]] 2 2 float_0_75)
    = Returns (mkHashTable [[(2, 20)]; [(1, 10)]; []; []] 4 2 float_0_75) /\
  Get (mkHashTable [[(2, 20)]; [(1, 10)]; []; []] 4 2 float_0_75) 1
    = Get (mkHashTable [[(2, 20)]; [(1, 10)]] 2 2 float_0_75) 1.
Proof.
  assert (HR : Resize (mkHashTable [[(2, 20)]; [(1, 10)]] 2 2 float_0_75)
               = Returns (mkHashTable [[(2, 20)]; [(1, 10)]; []; []] 4 2 float_0_75))
    by (vm_compute; reflexivity).
  split; [exact HR|].
  apply (Resize_keeps_unmoved_keys _ _ 1 two_slot_table_invariant); [|exact HR|].
  - unfold INT_MAX. simpl. lia.
  - vm_compute. reflexivity.
Defined.


Lemma Show_after_Clear_witness :
  Show (Clear (mkHashTable [[(2, 20)]; [(1, 10)]] 2 2 float_0_75))
  = Undefined out_of_bounds.
Proof.
  apply (Show_after_Clear (mkHashTable [[(2, 20)]; [(1, 10)]] 2 2 float_0_75)).
  simpl. lia.
Defined.

(** the table of the keys 2 and 1, its nodes at the addresses 0 and 1 *)
Lemma destructor_releases_every_node_witness :
  destructor [Some (Store.mkNode 2 20 None); Some (Store.mkNode 1 10 None)]
             (Store.mkTable [Some 0%nat; Some 1%nat] 2 2 float_0_75)
  = [None; None].
Proof.
  apply (destructor_releases_every_node
           (mkHashTable [[(2, 20)]; [(1, 10)]] 2 2 float_0_75)).
  reflexivity.
Defined.

Lemma HashTable_copy_without_collisions_witness :
  exists new tc,
    Store.HashTable_copy 1
      [Some (Store.mkNode 2 20 None); Some (Store.mkNode 1 10 None)]
      (Store.mkTable [Some 0%nat; Some 1%nat] 2 2 float_0_75)
    = Some (Returns ([Some (Store.mkNode 2 20 None); Some (Store.mkNode 1 10 None)] ++ new,
                     tc)) /\
    Store.load_table
      ([Some (Store.mkNode 2 20 None); Some (Store.mkNode 1 10 None)] ++ new) tc
    = Some (mkHashTable [[(2, 20)]; [(1, 10)]] 2 2 float_0_75).
Proof.
  destruct (HashTable_copy_without_collisions 1
              (mkHashTable [[(2, 20)]; [(1, 10)]] 2 2 float_0_75)
              [Some (Store.mkNode 2 20 None); Some (Store.mkNode 1 10 None)]
              (Store.mkTable [Some 0%nat; Some 1%nat] 2 2 float_0_75))
    as (new & tc & Hrun & Hcopy & _).
  - repeat constructor.
  - reflexivity.
  - unfold INT_MAX. simpl. lia.
  - lia.
  - reflexivity.
  - exists new, tc. split; [exact Hrun|exact Hcopy].
Defined.

(** [t(1, 0.75); t.Insert(1, 10); t.Insert(2, 20)]: the second call grows
    the table first *)
Lemma Insert_then_Get_witness :
  Insert (mkHashTable [[(1, 10)]] 1 1 float_0_75) 2 20
    = Returns (mkHashTable [[(2, 20); (1, 10)]; []] 2 2 float_0_75) /\
  Get (mkHashTable [[(2, 20); (1, 10)]; []] 2 2 float_0_75) 2 = Returns 20 /\
  ContainsKey (mkHashTable [[(2, 20); (1, 10)]; []] 2 2 float_0_75) 2 = Returns true.
Proof.
  assert (HI : Insert (mkHashTable [[(1, 10)]] 1 1 float_0_75) 2 20
               = Returns (mkHashTable [[(2, 20); (1, 10)]; []] 2 2 float_0_75))
    by (vm_compute; reflexivity).
  split; [exact HI|]. exact (Insert_then_Get _ 2 20 _ HI).
Defined.

(** [t(1, 0.75); t.Insert(1, 10); t.Insert(1, 20)]: two nodes with key 1,
    and a count of 2 *)
Lemma reachable_Size_counts_nodes_witness :
  reachable (mkHashTable [[(1, 10)]; [(1, 20)]] 2 2 float_0_75) /\
  Size (mkHashTable [[(1, 10)]; [(1, 20)]] 2 2 float_0_75)
    = to_size_t (Z.of_nat (length (entries (mkHashTable [[(1, 10)]; [(1, 20)]] 2 2
                                                        float_0_75)))).
Proof.
  assert (Hreach : reachable (mkHashTable [[(1, 10)]; [(1, 20)]] 2 2 float_0_75)).
  { apply (reachable_Insert (mkHashTable [[(1, 10)]] 1 1 float_0_75) 1 20);
      [|vm_compute; reflexivity].
    apply (reachable_Insert (mkHashTable [[]] 1 0 float_0_75) 1 10);
      [|vm_compute; reflexivity].
    apply (reachable_new 1 float_0_75). reflexivity. }
  split; [exact Hreach|].
  exact (proj1 (reachable_Size_counts_nodes _ Hreach)).
Defined.

Lemma IsEmpty_iff_no_key_witness :
  Size (mkHashTable [[(2, 20)]; [(1, 10)]] 2 2 float_0_75) = 2 /\
  (IsEmpty (mkHashTable [[(2, 20)]; [(1, 10)]] 2 2 float_0_75) = true <->
   forall key, ContainsKey (mkHashTable [[(2, 20)]; [(1, 10)]] 2 2 float_0_75) key
               = Returns false).
Proof.
  exact (IsEmpty_iff_no_key _ two_slot_table_invariant).
Defined.

Lemma keyed_operations_undefined_iff_witness :
  (Get (mkHashTable [[(2, 20)]; [(1, 10)]] 2 2 float_0_75) 1 = Undefined out_of_bounds
   <-> INT_MAX < std_hash 1 mod 2) /\
  (ContainsKey (mkHashTable [[(2, 20)]; [(1, 10)]] 2 2 float_0_75) 1
   = Undefined out_of_bounds <-> INT_MAX < std_hash 1 mod 2) /\
  (Remove (mkHashTable [[(2, 20)]; [(1, 10)]] 2 2 float_0_75) 1
   = Undefined out_of_bounds <-> INT_MAX < std_hash 1 mod 2).
Proof.
  apply (keyed_operations_undefined_iff
           (mkHashTable [[(2, 20)]; [(1, 10)]] 2 2 float_0_75) 1).
  - reflexivity.
  - simpl. lia.
Defined.

(** [a(2, 0.75)] with the keys 2 and 1, [b(2, 0.75)] with key 1, and
    [a = b] *)
Lemma copy_assign_has_no_bucket_witness :
  Store.copy_assign 1
    [Some (Store.mkNode 2 20 None); Some (Store.mkNode 1 10 None);
     Some (Store.mkNode 1 10 None)]
    (Store.mkTable [Some 0%nat; Some 1%nat] 2 2 float_0_75)
    (Store.mkTable [None; Some 2%nat] 2 1 float_0_75)
  = Some (Undefined out_of_bounds).
Proof.
  apply (copy_assign_has_no_bucket 1
           (mkHashTable [[(2, 20)]; [(1, 10)]] 2 2 float_0_75)
           (mkHashTable [[]; [(1, 10)]] 2 1 float_0_75)
           [Some (Store.mkNode 2 20 None); Some (Store.mkNode 1 10 None)]).
  - reflexivity.
  - reflexivity.
  - reflexivity.
  - unfold INT_MAX. simpl. lia.
  - lia.
  - discriminate.
Defined.
